(** * Zoq real-time layer: call session and conversation sync

  A shallow embedding of the two components that make up the real-time
  core of the Zoq client:

  - [VideoCall] (src/frontend/src/components/VideoCall.jsx): the WebRTC
    call session built on a SimplePeer object;
  - [Messages] (the Messages component): the conversation view with its
    REST loads, optimistic send and socket events.

  Both are React function components.  A handler is a closure created by
  one render: it sees the state values of that render (a [Closure]) and
  reaches everything mutable (refs, media tracks, the peer object, the
  pending state of the component) through the live [Session]/[State].
  Handlers are therefore functions of a closure and of the live state. *)

From Stdlib Require Import NArith ZArith String Ascii DecimalN.
From stdpp Require Import base list.

(** ** JavaScript values shared by both components *)

Module Js.

(** A JavaScript string is a sequence of UTF-16 code units. *)
Abbreviation str := (list N) (only parsing).

Definition lit (s : string) : str :=
  map N_of_ascii (list_ascii_of_string s).
Arguments lit s%_string.

(** [===] on two strings. *)
Definition strict_eq (a b : str) : bool := bool_decide (a = b).

(** Truthiness of a string: only [''] is falsy. *)
Definition truthy_str (a : str) : bool :=
  match a with [] => false | _ => true end.

(** Truthiness of a nullable object reference. *)
Definition truthy {A} (o : option A) : bool :=
  match o with Some _ => true | None => false end.

(** ECMAScript WhiteSpace and LineTerminator code units, the ones
    [String.prototype.trim] strips. *)
Definition is_white_space (c : N) : bool :=
  (bool_decide (c = 9) || bool_decide (c = 10) || bool_decide (c = 11)
   || bool_decide (c = 12) || bool_decide (c = 13) || bool_decide (c = 32)
   || bool_decide (c = 160) || bool_decide (c = 5760)
   || ((8192 <=? c) && (c <=? 8202))
   || bool_decide (c = 8232) || bool_decide (c = 8233)
   || bool_decide (c = 8239) || bool_decide (c = 8287)
   || bool_decide (c = 12288) || bool_decide (c = 65279))%N.

Fixpoint trim_start (s : str) : str :=
  match s with
  | c :: r => if is_white_space c then trim_start r else s
  | [] => []
  end.

Definition trim (s : str) : str :=
  rev (trim_start (rev (trim_start s))).

(** A value as a socket payload can carry one.  Objects and arrays are
    named by their JSON text; numbers are the integers. *)
Inductive Value :=
| js_undefined
| js_null
| js_boolean (b : bool)
| js_number (n : Z)
| js_string (s : str)
| js_object (json : str).

#[global] Instance Value_eq_dec : EqDecision Value.
Proof. solve_decision. Defined.

(** Truthiness of a value: [undefined], [null], [false], [0] and ['']
    are falsy, everything else is truthy. *)
Definition truthy_value (v : Value) : bool :=
  match v with
  | js_undefined | js_null => false
  | js_boolean b => b
  | js_number n => negb (n =? 0)%Z
  | js_string s => truthy_str s
  | js_object _ => true
  end.

(** What a thrown JavaScript value is, as far as the components care. *)
Inductive Exn :=
| TypeError        (* a method called on null or undefined *)
| ERR_DESTROYED    (* simple-peer: cannot signal after peer is destroyed *)
| Rejected.        (* a promise rejected by the platform or the network *)

Inductive Result (A : Type) :=
| Ok (a : A)
| Throw (e : Exn).
Arguments Ok {A} a.
Arguments Throw {A} e.

End Js.
Import Js.

(** ** The call session: VideoCall.jsx *)

Module VideoCall.

(** A MediaStreamTrack: [kind] is fixed, [enabled] and [readyState]
    are mutable. *)
Inductive Kind := audio | video.
Inductive ReadyState := live | ended.

Record Track := mkTrack {
  kind : Kind;
  enabled : bool;
  readyState : ReadyState }.

(** A MediaStream object is its track set; streams live in a heap and
    are held by reference. *)
Abbreviation MediaStream := (list Track) (only parsing).
Abbreviation StreamRef := nat (only parsing).

Abbreviation SignalData := Value (only parsing).
Abbreviation RemoteStream := nat (only parsing).

Inductive Socket := socket_io.

(** Props of the component (the [user], [recipientName] and [onEnd]
    props are not read as data: [onEnd] is only called). *)
Record Props := mkProps {
  recipientId : str;
  socket : option Socket;
  callType : str }.

(** The values one render closes over. *)
Record Closure := mkClosure {
  props : Props;
  seen_localStream : option StreamRef;
  seen_isMuted : bool;
  seen_isVideoOff : bool }.

(** The SimplePeer object.  [owner] is the closure whose [createPeer]
    registered the event handlers; [fed] is what [peer.signal] was
    given, oldest first. *)
Record Peer := mkPeer {
  initiator : bool;
  trickle : bool;
  stream : StreamRef;
  owner : Closure;
  fed : list SignalData;
  destroyed : bool }.

(** Calls that leave the component, in program order. *)
Inductive Call :=
| get_user_media (with_video : bool)
| track_stop (ms : StreamRef) (i : nat)
| peer_destroy
| socket_emit_call_user (to_user_id : str) (signal : SignalData) (type : str)
| onEnd
| console_error (msg : str).

Record Session := mkSession {
  localStream : option StreamRef;
  remoteStream : option RemoteStream;
  isMuted : bool;
  isVideoOff : bool;
  callStatus : str;
  peerRef : option Peer;
  streams : list MediaStream;
  calls : list Call }.

(** State after [useState]/[useRef] initialisation on mount. *)
Definition mount (p : Props) : Session :=
  {| localStream := None;
     remoteStream := None;
     isMuted := false;
     isVideoOff := strict_eq (callType p) (lit "audio");
     callStatus := lit "Connecting...";
     peerRef := None;
     streams := [];
     calls := [] |}.

(** The closure of a render of the session as it is now. *)
Definition render (p : Props) (s : Session) : Closure :=
  {| props := p;
     seen_localStream := localStream s;
     seen_isMuted := isMuted s;
     seen_isVideoOff := isVideoOff s |}.

(** *** State setters and field updates *)

Definition setLocalStream (v : option StreamRef) (s : Session) : Session :=
  mkSession v (remoteStream s) (isMuted s) (isVideoOff s) (callStatus s)
            (peerRef s) (streams s) (calls s).
Definition setRemoteStream (v : option RemoteStream) (s : Session) : Session :=
  mkSession (localStream s) v (isMuted s) (isVideoOff s) (callStatus s)
            (peerRef s) (streams s) (calls s).
Definition setIsMuted (v : bool) (s : Session) : Session :=
  mkSession (localStream s) (remoteStream s) v (isVideoOff s) (callStatus s)
            (peerRef s) (streams s) (calls s).
Definition setIsVideoOff (v : bool) (s : Session) : Session :=
  mkSession (localStream s) (remoteStream s) (isMuted s) v (callStatus s)
            (peerRef s) (streams s) (calls s).
Definition setCallStatus (v : str) (s : Session) : Session :=
  mkSession (localStream s) (remoteStream s) (isMuted s) (isVideoOff s) v
            (peerRef s) (streams s) (calls s).
Definition set_peerRef (v : option Peer) (s : Session) : Session :=
  mkSession (localStream s) (remoteStream s) (isMuted s) (isVideoOff s)
            (callStatus s) v (streams s) (calls s).
Definition set_streams (v : list MediaStream) (s : Session) : Session :=
  mkSession (localStream s) (remoteStream s) (isMuted s) (isVideoOff s)
            (callStatus s) (peerRef s) v (calls s).
Definition log (c : list Call) (s : Session) : Session :=
  mkSession (localStream s) (remoteStream s) (isMuted s) (isVideoOff s)
            (callStatus s) (peerRef s) (streams s) (calls s ++ c).

(** *** Commands: state passing with exceptions *)

Definition Cmd := Session -> Result Session.

Definition skip : Cmd := Ok.
Definition andThen (a b : Cmd) : Cmd :=
  fun s => match a s with Ok s' => b s' | Throw e => Throw e end.
Definition pure (f : Session -> Session) : Cmd := fun s => Ok (f s).
(** [if (cond) { a }] *)
Definition guard (cond : Session -> bool) (a : Cmd) : Cmd :=
  fun s => if cond s then a s else Ok s.

Declare Scope cmd_scope.
Delimit Scope cmd_scope with cmd.
Bind Scope cmd_scope with Cmd.
Notation "a ;; b" := (andThen a b)
  (at level 100, b at level 200, right associativity) : cmd_scope.
Local Open Scope cmd_scope.

(** *** Methods of the platform objects

    MediaStreamTrack and SimplePeer belong to the browser and to the
    simple-peer library.  Their methods are modelled by what the component
    relies on: [stop()] ends a track, [destroy()] marks the peer destroyed,
    [signal(data)] hands [data] to the peer, unless the peer is destroyed:
    then it throws [ERR_DESTROYED].  Called through a null reference they
    throw [TypeError]. *)

Definition is_kind (k : Kind) (t : Track) : bool :=
  match k, kind t with
  | audio, audio | video, video => true
  | _, _ => false
  end.

Definition flip_enabled (t : Track) : Track :=
  mkTrack (kind t) (negb (enabled t)) (readyState t).
Definition stop (t : Track) : Track :=
  mkTrack (kind t) (enabled t) ended.

Definition on_selected (sel : Track -> bool) (f : Track -> Track)
    (t : Track) : Track :=
  if sel t then f t else t.

(** [recv.getAudioTracks().forEach(track => { track.enabled = !track.enabled })]
    and its video twin: a method call on [recv], so a null receiver
    throws. *)
Definition forEach_flip (recv : option StreamRef) (k : Kind) : Cmd :=
  match recv with
  | None => fun _ => Throw TypeError
  | Some r =>
      pure (fun s => set_streams
              (alter (map (on_selected (is_kind k) flip_enabled)) r (streams s)) s)
  end.

Definition stop_calls (r : StreamRef) (ms : MediaStream) : list Call :=
  map (track_stop r) (seq 0 (length ms)).

(** [recv.getTracks().forEach(track => track.stop())] *)
Definition forEach_stop (recv : option StreamRef) : Cmd :=
  match recv with
  | None => fun _ => Throw TypeError
  | Some r =>
      pure (fun s =>
              log (stop_calls r (default [] (streams s !! r)))
                  (set_streams (alter (map stop) r (streams s)) s))
  end.

(** The peer after [signal(data)] and after [destroy()]. *)
Definition feed (data : SignalData) (p : Peer) : Peer :=
  mkPeer (initiator p) (trickle p) (stream p) (owner p)
         (fed p ++ [data]) (destroyed p).
Definition destroy (p : Peer) : Peer :=
  mkPeer (initiator p) (trickle p) (stream p) (owner p) (fed p) true.

(** [peerRef.current.signal(data)]: a destroyed peer refuses the signal
    with [ERR_DESTROYED]. *)
Definition peer_signal (data : SignalData) : Cmd :=
  fun s =>
    match peerRef s with
    | None => Throw TypeError
    | Some p =>
        if destroyed p then Throw ERR_DESTROYED
        else Ok (set_peerRef (Some (feed data p)) s)
    end.

(** [peerRef.current.destroy()] *)
Definition peer_destroy_ : Cmd :=
  fun s =>
    match peerRef s with
    | None => Throw TypeError
    | Some p =>
        Ok (log [peer_destroy] (set_peerRef (Some (destroy p)) s))
    end.

(** *** The component's functions, in source order *)

(** [createPeer(stream, initiator)]: builds the peer, registers the four
    listeners of closure [c] on it, stores it in [peerRef]. *)
Definition createPeer (c : Closure) (stream : StreamRef) (initiator : bool) : Cmd :=
  pure (set_peerRef (Some (mkPeer initiator true stream c [] false))).

(** [initializeCall] up to its [await]: the request for the devices. *)
Definition initializeCall (c : Closure) : Cmd :=
  pure (log [get_user_media (strict_eq (callType (props c)) (lit "video"))]).

(** [initializeCall] from the [await] on: [media] is how
    [getUserMedia] settled, a fresh stream or a rejection. *)
Definition initializeCall_settled (c : Closure) (media : Result MediaStream) : Cmd :=
  match media with
  | Ok tracks =>
      fun s =>
        let stream := length (streams s) in
        (pure (set_streams (streams s ++ [tracks])) ;;
         pure (setLocalStream (Some stream)) ;;
         createPeer c stream true ;;
         pure (setCallStatus (lit "Calling..."))) s
  | Throw _ =>
      pure (log [console_error (lit "Failed to get media stream:")]) ;;
      pure (setCallStatus (lit "Failed to access camera/microphone"))
  end.

Definition handleIncomingCall (c : Closure) (signal : SignalData)
    (from_user_id : str) : Cmd :=
  guard (fun s => strict_eq from_user_id (recipientId (props c))
                  && truthy (peerRef s))
        (peer_signal signal).

Definition handleCallAccepted (signal : SignalData) : Cmd :=
  guard (fun s => truthy (peerRef s)) (peer_signal signal).

(** The [candidate] field of the payload is any value; the handler tests
    its truthiness. *)
Definition handleIceCandidate (candidate : Value) : Cmd :=
  guard (fun s => truthy (peerRef s) && truthy_value candidate)
        (peer_signal candidate).

Definition toggleMute (c : Closure) : Cmd :=
  guard (fun _ => truthy (seen_localStream c))
        (forEach_flip (seen_localStream c) audio ;;
         pure (setIsMuted (negb (seen_isMuted c)))).

Definition toggleVideo (c : Closure) : Cmd :=
  guard (fun _ => truthy (seen_localStream c)
                  && strict_eq (callType (props c)) (lit "video"))
        (forEach_flip (seen_localStream c) video ;;
         pure (setIsVideoOff (negb (seen_isVideoOff c)))).

Definition cleanup (c : Closure) : Cmd :=
  guard (fun _ => truthy (seen_localStream c))
        (forEach_stop (seen_localStream c)) ;;
  guard (fun s => truthy (peerRef s)) peer_destroy_.

Definition endCall (c : Closure) : Cmd :=
  cleanup c ;;
  pure (log [onEnd]).

(** *** Listeners registered on the peer by [createPeer] *)

Definition type_of (initiator : bool) : str :=
  if initiator then lit "offer" else lit "answer".

Definition peer_on_signal (p : Peer) (signal : SignalData) : Cmd :=
  guard (fun _ => truthy (socket (props (owner p))))
        (pure (log [socket_emit_call_user (recipientId (props (owner p)))
                      signal (type_of (initiator p))])).

Definition peer_on_stream (rs : RemoteStream) : Cmd :=
  pure (setRemoteStream (Some rs)) ;;
  pure (setCallStatus (lit "Connected")).

Definition peer_on_error : Cmd :=
  pure (log [console_error (lit "Peer error:")]) ;;
  pure (setCallStatus (lit "Connection error")).

Definition peer_on_close (p : Peer) : Cmd :=
  endCall (owner p).

(** Running a command [n] times in a row. *)
Fixpoint repeatedly (n : nat) (a : Cmd) : Cmd :=
  match n with
  | 0 => skip
  | S k => a ;; repeatedly k a
  end.

(** *** The event loop *)

Inductive Event :=
| media_settled (media : Result MediaStream)
| incoming_call (signal : SignalData) (from_user_id : str)
| call_accepted (signal : SignalData)
| ice_candidate (candidate : Value)
| click_mute
| click_video
| click_end
| peer_signal_event (signal : SignalData)
| peer_stream_event (rs : RemoteStream)
| peer_error_event
| peer_close_event
| unmount.

(** A peer event runs the listener [createPeer] registered, if there is
    a peer to emit it. *)
Definition on_peer (listener : Peer -> Cmd) : Cmd :=
  fun s => match peerRef s with Some p => listener p s | None => Ok s end.

(** The peer emits [error] and [close] from its own [destroy]: by the
    time their listeners run, the peer is destroyed. *)
Definition on_destroyed_peer (listener : Peer -> Cmd) : Cmd :=
  fun s =>
    match peerRef s with
    | Some p => listener p (set_peerRef (Some (destroy p)) s)
    | None => Ok s
    end.

(** The socket listeners are registered only when the [socket] prop is
    not null. *)
Definition on_socket (p : Props) (listener : Cmd) : Cmd :=
  guard (fun _ => truthy (socket p)) listener.

(** One turn of the event loop of a component mounted with props [p].
    [getUserMedia] settles into the continuation of the mount effect,
    which belongs to the first render; the buttons belong to the latest
    render; the socket listeners read props and [peerRef] only, so any
    render's closure stands for theirs; the peer's listeners belong to
    the render that created the peer, and so does the clean-up function
    the mount effect returned, which runs on unmount. *)
Definition step (p : Props) (e : Event) : Cmd :=
  fun s =>
    match e with
    | media_settled media =>
        initializeCall_settled (render p (mount p)) media s
    | incoming_call signal from_user_id =>
        on_socket p (handleIncomingCall (render p s) signal from_user_id) s
    | call_accepted signal => on_socket p (handleCallAccepted signal) s
    | ice_candidate candidate => on_socket p (handleIceCandidate candidate) s
    | click_mute => toggleMute (render p s) s
    | click_video => toggleVideo (render p s) s
    | click_end => endCall (render p s) s
    | peer_signal_event signal => on_peer (fun q => peer_on_signal q signal) s
    | peer_stream_event rs => on_peer (fun _ => peer_on_stream rs) s
    | peer_error_event => on_destroyed_peer (fun _ => peer_on_error) s
    | peer_close_event => on_destroyed_peer peer_on_close s
    | unmount => cleanup (render p (mount p)) s
    end.

Fixpoint run (p : Props) (es : list Event) : Cmd :=
  match es with
  | [] => skip
  | e :: r => step p e ;; run p r
  end.

(** The session once mounted: first render, then the mount effect. *)
Definition mounted (p : Props) : Result Session :=
  initializeCall (render p (mount p)) (mount p).

(** Sessions the event loop can reach from a mount. *)
Inductive reachable (p : Props) : Session -> Prop :=
| reachable_mounted s : mounted p = Ok s -> reachable p s
| reachable_step s e s' :
    reachable p s -> step p e s = Ok s' -> reachable p s'.

(** *** Counting calls *)

#[global] Instance Call_eq_dec : EqDecision Call.
Proof. solve_decision. Defined.

(** How many times call [c] appears in a log. *)
Definition times (c : Call) (l : list Call) : nat :=
  length (filter (fun x => x = c) l).

(** The calls one [cleanup] makes from closure [c] in session [s]. *)
Definition cleanup_calls (c : Closure) (s : Session) : list Call :=
  match seen_localStream c with
  | Some r => stop_calls r (default [] (streams s !! r))
  | None => []
  end
  ++ (if truthy (peerRef s) then [peer_destroy] else []).

(** *** Derived notions used to state the properties *)

(** [forEach_flip _ audio] on one track. *)
Definition flip_audio (t : Track) : Track :=
  on_selected (is_kind audio) flip_enabled t.

(** The heap of streams once the tracks seen by closure [c] are stopped. *)
Definition stopped (c : Closure) (l : list MediaStream) : list MediaStream :=
  match seen_localStream c with
  | Some r => alter (map stop) r l
  | None => l
  end.

(** Every peer the session holds was built as initiator. *)
Definition only_initiators (s : Session) : Prop :=
  match peerRef s with Some q => initiator q = true | None => True end.

(** *** Sample sessions *)

Definition bob : str := lit "bob".
Definition video_props : Props :=
  {| recipientId := bob; socket := Some socket_io; callType := lit "video" |}.
Definition camera : MediaStream :=
  [mkTrack audio true live; mkTrack video true live].
Definition offer : SignalData := js_object (lit "offer-sdp").
Definition answer : SignalData := js_object (lit "answer-sdp").
Definition candidate1 : SignalData := js_object (lit "candidate-1").

(** A video call to bob once camera and microphone were granted: stream 0
    holds both tracks and the peer built by the mount effect exists. *)
Definition in_call : Session :=
  {| localStream := Some 0;
     remoteStream := None;
     isMuted := false;
     isVideoOff := false;
     callStatus := lit "Calling...";
     peerRef := Some (mkPeer true true 0 (render video_props (mount video_props))
                             [] false);
     streams := [camera];
     calls := [get_user_media true] |}.

End VideoCall.

(** ** Conversation sync: the Messages component *)

Module Messages.

Record Message := mkMessage {
  id : str;
  from_user_id : str;
  to_user_id : str;
  content : str;
  created_at : str }.

Record Conversation := mkConversation {
  user_id : str;
  last_message : str;
  unread_count : N }.

Inductive Socket := socket_io.

(** One reading of the clock: [Date.now()] and the ISO rendering that
    [new Date().toISOString()] gives. *)
Record Clock := mkClock {
  now : N;
  toISOString : str }.

Fixpoint digits (d : Decimal.uint) : str :=
  match d with
  | Decimal.Nil => []
  | Decimal.D0 r => 48%N :: digits r
  | Decimal.D1 r => 49%N :: digits r
  | Decimal.D2 r => 50%N :: digits r
  | Decimal.D3 r => 51%N :: digits r
  | Decimal.D4 r => 52%N :: digits r
  | Decimal.D5 r => 53%N :: digits r
  | Decimal.D6 r => 54%N :: digits r
  | Decimal.D7 r => 55%N :: digits r
  | Decimal.D8 r => 56%N :: digits r
  | Decimal.D9 r => 57%N :: digits r
  end.

(** [Number.prototype.toString] on a non-negative integer. *)
Definition toString (n : N) : str := digits (N.to_uint n).

(** The values one render closes over: the [user] prop's id, the route
    parameter and the state cells the handlers read. *)
Record Closure := mkClosure {
  user : str;
  seen_userId : option str;
  seen_messages : list Message;
  seen_newMessage : str;
  seen_socket : option Socket }.

(** A request in flight, named by the [await] that waits for it. *)
Inductive Pending :=
| get_conversations
| get_messages (partnerId : str)
| post_message (c : Closure).

Inductive Call :=
| axios_get_conversations
| axios_get_messages (partnerId : str)
| axios_post_messages (to_user_id : str) (content : str)
| socket_emit_authenticate (token : option str)
| socket_emit_send_message (to_user_id : str) (content : str)
| toast_error (msg : str)
| console_error (msg : str).

(** The live state: the route parameter, the state cells, the socket
    object's [connected] flag, the requests in flight and the calls made
    so far. *)
Record State := mkState {
  userId : option str;
  conversations : list Conversation;
  messages : list Message;
  newMessage : str;
  socket : option Socket;
  connected : bool;
  inflight : list Pending;
  calls : list Call }.

Definition render (me : str) (s : State) : Closure :=
  {| user := me;
     seen_userId := userId s;
     seen_messages := messages s;
     seen_newMessage := newMessage s;
     seen_socket := socket s |}.

Definition set_userId (v : option str) (s : State) : State :=
  mkState v (conversations s) (messages s) (newMessage s) (socket s)
          (connected s) (inflight s) (calls s).
Definition setConversations (v : list Conversation) (s : State) : State :=
  mkState (userId s) v (messages s) (newMessage s) (socket s)
          (connected s) (inflight s) (calls s).
Definition setMessages (v : list Message) (s : State) : State :=
  mkState (userId s) (conversations s) v (newMessage s) (socket s)
          (connected s) (inflight s) (calls s).
Definition setNewMessage (v : str) (s : State) : State :=
  mkState (userId s) (conversations s) (messages s) v (socket s)
          (connected s) (inflight s) (calls s).
Definition setSocket (v : option Socket) (s : State) : State :=
  mkState (userId s) (conversations s) (messages s) (newMessage s) v
          (connected s) (inflight s) (calls s).
Definition set_connected (v : bool) (s : State) : State :=
  mkState (userId s) (conversations s) (messages s) (newMessage s) (socket s)
          v (inflight s) (calls s).
Definition set_inflight (v : list Pending) (s : State) : State :=
  mkState (userId s) (conversations s) (messages s) (newMessage s) (socket s)
          (connected s) v (calls s).
Definition log (c : list Call) (s : State) : State :=
  mkState (userId s) (conversations s) (messages s) (newMessage s) (socket s)
          (connected s) (inflight s) (calls s ++ c).

(** Issue a request: the call goes out and the caller waits at [k]. *)
Definition await (c : Call) (k : Pending) (s : State) : State :=
  set_inflight (inflight s ++ [k]) (log [c] s).

(** State after [useState] initialisation, at route parameter [uid]. *)
Definition init (uid : option str) : State :=
  {| userId := uid;
     conversations := [];
     messages := [];
     newMessage := [];
     socket := None;
     connected := false;
     inflight := [];
     calls := [] |}.

(** Truthiness of the route parameter: [undefined] and [''] are falsy. *)
Definition truthy_param (o : option str) : bool :=
  match o with Some u => truthy_str u | None => false end.

(** *** The component's functions, in source order *)

Definition loadConversations (s : State) : State :=
  await axios_get_conversations get_conversations s.

Definition loadConversations_settled (r : Result (list Conversation))
    (s : State) : State :=
  match r with
  | Ok data => setConversations data s
  | Throw _ => log [console_error (lit "Failed to load conversations")] s
  end.

Definition loadMessages (partnerId : str) (s : State) : State :=
  await (axios_get_messages partnerId) (get_messages partnerId) s.

Definition loadMessages_settled (r : Result (list Message)) (s : State) : State :=
  match r with
  | Ok data => setMessages data s
  | Throw _ => log [toast_error (lit "Failed to load messages")] s
  end.

(** The listener for [new_message], registered once by the mount effect:
    [c] is the closure of the first render. *)
Definition on_new_message (c : Closure) (message : Message) (s : State) : State :=
  loadConversations
    (match seen_userId c with
     | Some u =>
         if truthy_str u
            && (strict_eq (from_user_id message) u
                || strict_eq (to_user_id message) u)
         then setMessages (messages s ++ [message]) s
         else s
     | None => s
     end).

(** The mount effect ([useEffect(..., [])]): load the conversation list
    and create the socket. *)
Definition mount_effect (s : State) : State :=
  setSocket (Some socket_io) (loadConversations s).

(** The socket connects: the listener for [connect] sends the token read
    from local storage ([null] when there is none). *)
Definition on_connect (token : option str) (s : State) : State :=
  log [socket_emit_authenticate token] (set_connected true s).

(** The effect on the route parameter ([useEffect(..., [userId])]).
    [loadSelectedUser] only fills the header's [selectedUser], which is
    not part of this state. *)
Definition userId_effect (c : Closure) (s : State) : State :=
  match seen_userId c with
  | Some u => if truthy_str u then loadMessages u s else s
  | None => s
  end.

Definition provisional (c : Closure) (to : str) (t_id t_created : Clock) : Message :=
  {| id := toString (now t_id);
     from_user_id := user c;
     to_user_id := to;
     content := seen_newMessage c;
     created_at := toISOString t_created |}.

(** [sendMessage] after the [if/else] of its [try] block: the append,
    the reset of the input and the refresh of the list. *)
Definition sendMessage_append (c : Closure) (to : str) (t_id t_created : Clock)
    (s : State) : State :=
  loadConversations
    (setNewMessage []
       (setMessages (seen_messages c ++ [provisional c to t_id t_created]) s)).

(** [sendMessage] up to its [await], or to its end when the socket path
    is taken (there is no [await] on that path). *)
Definition sendMessage (c : Closure) (t_id t_created : Clock) (s : State) : State :=
  match seen_userId c with
  | Some u =>
      if negb (truthy_str (trim (seen_newMessage c))) || negb (truthy_str u)
      then s
      else if truthy (seen_socket c) && connected s
      then sendMessage_append c u t_id t_created
             (log [socket_emit_send_message u (seen_newMessage c)] s)
      else await (axios_post_messages u (seen_newMessage c)) (post_message c) s
  | None => s
  end.

(** [sendMessage] from the [await] on: [r] is how the POST settled. *)
Definition sendMessage_settled (c : Closure) (r : Result unit)
    (t_id t_created : Clock) (s : State) : State :=
  match r with
  | Ok _ =>
      match seen_userId c with
      | Some u => sendMessage_append c u t_id t_created s
      | None => s
      end
  | Throw _ => log [toast_error (lit "Failed to send message")] s
  end.

(** *** The event loop *)

(** How a request in flight settles. *)
Inductive Settlement :=
| conversations_settled (r : Result (list Conversation))
| messages_settled (r : Result (list Message))
| post_settled (r : Result unit) (t_id t_created : Clock).

Inductive Event :=
| navigate (uid : option str)
| send (t_id t_created : Clock)
| typed (text : str)
| new_message (message : Message)
| socket_connect (token : option str)
| socket_disconnect
| settle (i : nat) (how : Settlement).

(** The continuation of a pending request; a settlement of the wrong
    shape for the request cannot happen. *)
Definition resume (k : Pending) (how : Settlement) (s : State) : option State :=
  match k, how with
  | get_conversations, conversations_settled r => Some (loadConversations_settled r s)
  | get_messages _, messages_settled r => Some (loadMessages_settled r s)
  | post_message c, post_settled r t_id t_created =>
      Some (sendMessage_settled c r t_id t_created s)
  | _, _ => None
  end.

(** One turn of the event loop for a component mounted by user [me] with
    first-render closure [c0].  [settle i] settles the [i]-th request in
    flight, in any order. *)
Definition step (me : str) (c0 : Closure) (e : Event) (s : State) : State :=
  match e with
  | navigate uid =>
      let s' := set_userId uid s in
      if bool_decide (uid = userId s) then s'
      else userId_effect (render me s') s'
  | send t_id t_created => sendMessage (render me s) t_id t_created s
  | typed text => setNewMessage text s
  | new_message message => on_new_message c0 message s
  | socket_connect token => on_connect token s
  | socket_disconnect => set_connected false s
  | settle i how =>
      match inflight s !! i with
      | Some k =>
          match resume k how (set_inflight (delete i (inflight s)) s) with
          | Some s' => s'
          | None => s
          end
      | None => s
      end
  end.

Definition run (me : str) (c0 : Closure) (es : list Event) (s : State) : State :=
  foldl (fun s e => step me c0 e s) s es.

(** Mounting at route parameter [uid]: first render, then both effects. *)
Definition mounted (me : str) (uid : option str) : State :=
  userId_effect (render me (init uid)) (mount_effect (init uid)).

(** A message belongs to the thread with [peer] when [peer] sent or
    received it (the test of the [new_message] listener). *)
Definition in_thread (peer : str) (m : Message) : bool :=
  strict_eq (from_user_id m) peer || strict_eq (to_user_id m) peer.

(** *** Sample states *)

Definition me : str := lit "me".
Definition alice : str := lit "alice".
Definition bob : str := lit "bob".
Definition from_alice : Message :=
  mkMessage (lit "m1") alice me (lit "hello from alice")
            (lit "2024-05-01T10:02:00.000Z").
Definition from_bob : Message :=
  mkMessage (lit "m2") bob me (lit "hello from bob")
            (lit "2024-05-01T10:05:00.000Z").
Definition noon : Clock :=
  mkClock 1714557600000 (lit "2024-05-01T10:00:00.000Z").

(** The closure of the first render when the component is mounted on
    alice's thread. *)
Definition first_render : Closure := render me (init (Some alice)).

(** Bob's thread is open and "hi" is typed; the socket exists but is not
    connected. *)
Definition offline : State :=
  {| userId := Some bob;
     conversations := [];
     messages := [from_bob];
     newMessage := lit "hi";
     socket := Some socket_io;
     connected := false;
     inflight := [];
     calls := [] |}.

(** Bob's thread is open on a connected socket; only blanks are typed. *)
Definition online_blank : State :=
  {| userId := Some bob;
     conversations := [];
     messages := [from_bob];
     newMessage := lit "  ";
     socket := Some socket_io;
     connected := true;
     inflight := [];
     calls := [] |}.

End Messages.

(** ** The chat header: [loadSelectedUser] of the Messages component *)

Module Header.

Record User := mkUser {
  id : str;
  username : str }.

Inductive Call :=
| axios_get_users_search (q : str)
| axios_get_friends
| console_error (msg : str).

(** The [selectedUser] state cell and the calls made so far. *)
Record State := mkState {
  selectedUser : option User;
  calls : list Call }.

Definition setSelectedUser (v : option User) (s : State) : State :=
  mkState v (calls s).
Definition log (c : list Call) (s : State) : State :=
  mkState (selectedUser s) (calls s ++ c).

(** [friends.data.find(f => f.id === partnerId)] *)
Definition find_friend (partnerId : str) (friends : list User) : option User :=
  find (fun f => strict_eq (id f) partnerId) friends.

(** [loadSelectedUser] up to its first [await]. *)
Definition loadSelectedUser (partnerId : str) (s : State) : State :=
  log [axios_get_users_search partnerId] s.

(** From the first [await] to the second: [r] is how the search settled.
    The result tells whether the function now waits for the friends. *)
Definition loadSelectedUser_searched (r : Result (list User)) (s : State)
    : State * bool :=
  match r with
  | Ok data =>
      if (0 <? length data)%nat then (log [axios_get_friends] s, true)
      else (s, false)
  | Throw _ => (log [console_error (lit "Failed to load user")] s, false)
  end.

(** From the second [await] on: [data] is what the search returned, [r]
    is how the friends request settled. *)
Definition loadSelectedUser_friends (partnerId : str) (data : list User)
    (r : Result (list User)) (s : State) : State :=
  match r with
  | Ok friends =>
      setSelectedUser
        (match find_friend partnerId friends with
         | Some friend => Some friend
         | None => data !! 0
         end) s
  | Throw _ => log [console_error (lit "Failed to load user")] s
  end.

(** What a settled search found. *)
Definition hits (search : Result (list User)) : list User :=
  match search with Ok data => data | Throw _ => [] end.

(** The whole function, given how its two requests settle. *)
Definition loadSelectedUser_run (partnerId : str) (search : Result (list User))
    (friends : Result (list User)) (s : State) : State :=
  let '(s1, waits) := loadSelectedUser_searched search (loadSelectedUser partnerId s) in
  if waits then
    match search with
    | Ok data => loadSelectedUser_friends partnerId data friends s1
    | Throw _ => s1
    end
  else s1.

End Header.

(** ** The application shell: App.js *)

Module App.

Record User := mkUser {
  id : str;
  username : str }.

Inductive Call :=
| axios_get_auth_me
| toast_success (msg : str).

Inductive View := spinner | auth_page | main_layout (user : User).

(** [zoq_token] in local storage ([None]: no such item), the state cells
    and the calls made so far. *)
Record State := mkState {
  zoq_token : option str;
  user : option User;
  loading : bool;
  calls : list Call }.

Definition init (stored : option str) : State :=
  {| zoq_token := stored; user := None; loading := true; calls := [] |}.

Definition setItem (v : str) (s : State) : State :=
  mkState (Some v) (user s) (loading s) (calls s).
Definition removeItem (s : State) : State :=
  mkState None (user s) (loading s) (calls s).
Definition setUser (v : option User) (s : State) : State :=
  mkState (zoq_token s) v (loading s) (calls s).
Definition setLoading (v : bool) (s : State) : State :=
  mkState (zoq_token s) (user s) v (calls s).
Definition log (c : list Call) (s : State) : State :=
  mkState (zoq_token s) (user s) (loading s) (calls s ++ c).

(** Truthiness of what [localStorage.getItem] returns. *)
Definition has_token (s : State) : bool :=
  match zoq_token s with Some t => truthy_str t | None => false end.

(** The request interceptor: the [Authorization] header of an outgoing
    request whose header was [authorization] before. *)
Definition interceptor (s : State) (authorization : option str) : option str :=
  match zoq_token s with
  | Some t => if truthy_str t then Some (lit "Bearer " ++ t) else authorization
  | None => authorization
  end.

(** [checkAuth] up to its [await]; the result tells whether it waits. *)
Definition checkAuth (s : State) : State * bool :=
  if has_token s then (log [axios_get_auth_me] s, true)
  else (setLoading false s, false).

(** [checkAuth] from the [await] on. *)
Definition checkAuth_settled (r : Result User) (s : State) : State :=
  setLoading false
    (match r with
     | Ok data => setUser (Some data) s
     | Throw _ => removeItem s
     end).

Definition handleLogin (userData : User) (token : str) (s : State) : State :=
  setUser (Some userData) (setItem token s).

Definition handleLogout (s : State) : State :=
  log [toast_success (lit "Logged out successfully")] (setUser None (removeItem s)).

(** What [App] renders. *)
Definition view (s : State) : View :=
  if loading s then spinner
  else match user s with
       | None => auth_page
       | Some u => main_layout u
       end.

(** The mount effect, given how [/auth/me] settles if it is asked. *)
Definition start (stored : option str) (me : Result User) : State :=
  let '(s, waits) := checkAuth (init stored) in
  if waits then checkAuth_settled me s else s.

End App.

(** ** Notions used to state further properties of the call session *)

Module CallNotions.
Import VideoCall.

(** The [i]-th track of stream [r], if there is one. *)
Definition track_at (s : Session) (r i : nat) : option Track :=
  streams s !! r ≫= (fun ms => ms !! i).

(** The peer, if any, was built by the mount effect's [initializeCall]:
    its listeners belong to the first render and it is the initiator. *)
Definition mount_owned (p : Props) (s : Session) : Prop :=
  match peerRef s with
  | Some q => owner q = render p (mount p) /\ initiator q = true
  | None => True
  end.

(** The status texts the component ever sets. *)
Definition statuses : list str :=
  [lit "Connecting..."; lit "Calling..."; lit "Connected"; lit "Connection error";
   lit "Failed to access camera/microphone"].

Definition status_ok (s : Session) : Prop :=
  callStatus s ∈ statuses
  /\ (callStatus s = lit "Connected" -> is_Some (remoteStream s)).

(** [forEach_flip _ video] on one track. *)
Definition flip_video (t : Track) : Track :=
  on_selected (is_kind video) flip_enabled t.

(** A track keeps its kind and, once ended, stays ended. *)
Definition ages (t t' : Track) : Prop :=
  kind t' = kind t /\ (readyState t = ended -> readyState t' = ended).

(** Every track of heap [l] is still there in [l'], aged. *)
Definition evolves (l l' : list (list Track)) : Prop :=
  forall r i t, l !! r ≫= (fun ms => ms !! i) = Some t ->
    exists t', l' !! r ≫= (fun ms => ms !! i) = Some t' /\ ages t t'.

(** Every track of heap [l] is still there in [l'], as live or as ended
    as it was. *)
Definition keeps (l l' : list (list Track)) : Prop :=
  forall r i t, l !! r ≫= (fun ms => ms !! i) = Some t ->
    exists t', l' !! r ≫= (fun ms => ms !! i) = Some t'
               /\ readyState t' = readyState t.

(** The event is one of the three signals the socket delivers. *)
Definition from_socket (e : Event) : bool :=
  match e with
  | incoming_call _ _ | call_accepted _ | ice_candidate _ => true
  | _ => false
  end.

(** No call of the list is a [track.stop()]. *)
Definition no_stop (l : list Call) : Prop :=
  Forall (fun c => forall r i, c <> track_stop r i) l.

(** *** Sample sessions *)

Definition audio_props : Props :=
  {| recipientId := bob; socket := Some socket_io; callType := lit "audio" |}.

(** An audio call to bob after the microphone was granted and the video
    button, then the mute button, were pressed. *)
Definition audio_call : Session :=
  {| localStream := Some 0;
     remoteStream := None;
     isMuted := true;
     isVideoOff := true;
     callStatus := lit "Calling...";
     peerRef := Some (mkPeer true true 0 (render audio_props (mount audio_props))
                             [] false);
     streams := [[mkTrack audio false live]];
     calls := [get_user_media false] |}.

(** The peer of [in_call]. *)
Definition the_peer : Peer :=
  mkPeer true true 0 (render video_props (mount video_props)) [] false.

(** [in_call] after the hang-up button. *)
Definition hung_up : Session :=
  {| localStream := Some 0;
     remoteStream := None;
     isMuted := false;
     isVideoOff := false;
     callStatus := lit "Calling...";
     peerRef := Some (destroy the_peer);
     streams := [[mkTrack audio true ended; mkTrack video true ended]];
     calls := [get_user_media true; track_stop 0 0; track_stop 0 1;
               peer_destroy; onEnd] |}.

End CallNotions.

(** ** Notions used to state further properties of conversation sync *)

Module SyncNotions.
Import Messages.

(** The text consists of white space only (or is empty). *)
Definition blank (s : str) : bool := forallb is_white_space s.

(** The request settled with an error. *)
Definition failed (how : Settlement) : bool :=
  match how with
  | conversations_settled (Throw _) | messages_settled (Throw _)
  | post_settled (Throw _) _ _ => true
  | _ => false
  end.


(** The call only tells the user or the console about an error. *)
Definition notice (c : Call) : Prop :=
  match c with
  | toast_error _ | console_error _ => True
  | _ => False
  end.

(** History made of route changes, typing and inbound messages only. *)
Definition passive (e : Event) : Prop :=
  match e with
  | new_message _ | navigate _ | typed _ => True
  | _ => False
  end.

(** *** Sample states *)

(** Bob's thread is open on a connected socket and "hi" is typed. *)
Definition online : State :=
  {| userId := Some bob;
     conversations := [];
     messages := [from_bob];
     newMessage := lit "hi";
     socket := Some socket_io;
     connected := true;
     inflight := [];
     calls := [] |}.

(** The server's echo of the message sent from [online]. *)
Definition echo_of_hi : Message :=
  mkMessage (lit "m3") me bob (lit "hi") (lit "2024-05-01T10:00:00.120Z").

End SyncNotions.

(** * Properties of the call session *)

Module CallSession.
Import VideoCall.
Local Open Scope cmd_scope.

Example in_call_is_reached :
  (initializeCall (render video_props (mount video_props)) ;;
   run video_props [media_settled (Ok camera)]) (mount video_props) = Ok in_call.
Proof. reflexivity. Qed.

(** ** Logs and heaps *)

Lemma times_app c l1 l2 : times c (l1 ++ l2) = times c l1 + times c l2.
Proof. unfold times. by rewrite filter_app, length_app. Qed.

Lemma times_cons c x l :
  times c (x :: l) = (if decide (x = c) then 1 else 0) + times c l.
Proof. unfold times. cbn [filter list_filter]. by case_decide. Qed.

Lemma times_replicate c l n :
  times c (mjoin (replicate n l)) = n * times c l.
Proof.
  induction n as [|n IH]; [done|].
  change (mjoin (replicate (S n) l)) with (l ++ mjoin (replicate n l)).
  rewrite times_app, IH. lia.
Qed.

Lemma times_stop_calls r i ms :
  times (track_stop r i) (stop_calls r ms)
  = if decide (i < length ms) then 1 else 0.
Proof.
  unfold stop_calls. induction (length ms) as [|n IH].
  - by case_decide; [lia|].
  - rewrite seq_S, map_app, times_app, IH. cbn [map]. rewrite times_cons.
    repeat case_decide; simplify_eq; cbn; try lia.
    exfalso. apply H0. f_equal. lia.
Qed.

Lemma alter_twice {A} (f g : A -> A) (i : nat) (l : list A) :
  alter f i (alter g i l) = alter (fun x => f (g x)) i l.
Proof.
  apply list_eq; intros j. rewrite !list_lookup_alter.
  repeat case_decide; try done. by destruct (l !! i).
Qed.

Lemma alter_pointwise {A} (f g : A -> A) (i : nat) (l : list A) :
  (forall x, f x = g x) -> alter f i l = alter g i l.
Proof.
  intros E. apply list_eq; intros j. rewrite !list_lookup_alter.
  case_decide; [|done]. destruct (l !! i); cbn; by rewrite ?E.
Qed.

Lemma alter_id {A} (f : A -> A) (i : nat) (l : list A) :
  (forall x, f x = x) -> alter f i l = l.
Proof.
  intros E. apply list_eq; intros j. rewrite list_lookup_alter.
  case_decide; [|done]. subst. destruct (l !! j); cbn; by rewrite ?E.
Qed.

(** ** Teardown: [cleanup] and [endCall] *)

Lemma stop_stop t : stop (stop t) = stop t.
Proof. by destruct t. Qed.

Lemma destroy_destroy q : destroy (destroy q) = destroy q.
Proof. by destruct q. Qed.

Lemma fmap_destroy_twice (o : option Peer) :
  destroy <$> (destroy <$> o) = destroy <$> o.
Proof. destruct o; cbn; by rewrite ?destroy_destroy. Qed.

Lemma stopped_stopped c l : stopped c (stopped c l) = stopped c l.
Proof.
  unfold stopped. destruct (seen_localStream c) as [r|]; [|done].
  rewrite alter_twice. apply alter_pointwise; intros ms.
  rewrite map_map. apply map_ext, stop_stop.
Qed.

(** One [endCall] returns, and leaves the session with the seen tracks
    stopped, the peer (if any) destroyed and the teardown's calls logged. *)
Lemma endCall_once c s :
  endCall c s =
    Ok (mkSession (localStream s) (remoteStream s) (isMuted s) (isVideoOff s)
                  (callStatus s) (destroy <$> peerRef s) (stopped c (streams s))
                  (calls s ++ cleanup_calls c s ++ [onEnd])).
Proof.
  unfold endCall, cleanup, cleanup_calls, stopped, andThen, guard, forEach_stop,
    peer_destroy_, pure, log, set_streams, set_peerRef.
  destruct s as [ls rs m v st pr ss cs]; cbn.
  destruct (seen_localStream c) as [r|], pr as [q|]; cbn;
    rewrite <- ?app_assoc, ?app_nil_r; done.
Qed.

(** A teardown does not change what the next teardown will call. *)
Lemma cleanup_calls_stable c s cs ls rs m v st :
  cleanup_calls c (mkSession ls rs m v st (destroy <$> peerRef s)
                             (stopped c (streams s)) cs)
  = cleanup_calls c s.
Proof.
  unfold cleanup_calls, stopped; cbn [streams peerRef].
  destruct (seen_localStream c) as [r|].
  - rewrite list_lookup_alter_eq. f_equal.
    + unfold stop_calls. do 2 f_equal.
      destruct (streams s !! r) as [ms|]; cbn; [apply length_map|done].
    + by destruct (peerRef s).
  - by destruct (peerRef s).
Qed.

Lemma repeatedly_endCall c n s :
  exists s1,
    endCall c s = Ok s1
    /\ repeatedly (S n) (endCall c) s
       = Ok (log (mjoin (replicate n (cleanup_calls c s ++ [onEnd]))) s1).
Proof.
  revert s. induction n as [|n IH]; intros s.
  - eexists; split; [apply endCall_once|].
    cbn [repeatedly]. unfold andThen. rewrite endCall_once. unfold skip, log. cbn.
    by rewrite app_nil_r.
  - eexists; split; [apply endCall_once|].
    change (repeatedly (S (S n)) (endCall c))
      with (andThen (endCall c) (repeatedly (S n) (endCall c))).
    unfold andThen at 1. rewrite endCall_once.
    destruct (IH (mkSession (localStream s) (remoteStream s) (isMuted s)
                    (isVideoOff s) (callStatus s) (destroy <$> peerRef s)
                    (stopped c (streams s))
                    (calls s ++ cleanup_calls c s ++ [onEnd])))
      as (s1 & E1 & En).
    rewrite En. rewrite endCall_once in E1. injection E1 as <-.
    rewrite cleanup_calls_stable. unfold log. cbn.
    rewrite fmap_destroy_twice, stopped_stopped.
    change (mjoin (replicate (S n) ?l)) with (l ++ mjoin (replicate n l)).
    by rewrite <- !app_assoc.
Qed.

Lemma times_onEnd_cleanup c s : times onEnd (cleanup_calls c s) = 0.
Proof.
  unfold cleanup_calls. rewrite times_app.
  assert (forall r ms, times onEnd (stop_calls r ms) = 0) as Z.
  { intros r ms. unfold stop_calls. induction (seq 0 (length ms)); [done|].
    cbn [map]. by rewrite times_cons, decide_False. }
  destruct (seen_localStream c) as [r|], (truthy (peerRef s)); by rewrite ?Z.
Qed.

Lemma times_track_stop_cleanup c s r i :
  seen_localStream c = Some r ->
  i < length (default [] (streams s !! r)) ->
  times (track_stop r i) (cleanup_calls c s) = 1.
Proof.
  intros Hr Hi. unfold cleanup_calls. rewrite Hr, times_app, times_stop_calls.
  rewrite decide_True by done. by destruct (truthy (peerRef s)).
Qed.

(** C1, as stated, fails.  In a running video call the end-call handler
    invoked twice stops each local track twice, destroys the peer twice and
    calls [onEnd] twice: nothing makes the second invocation a no-op. *)
Lemma hangup_twice_releases_twice :
  exists s2,
    repeatedly 2 (endCall (render video_props in_call)) in_call = Ok s2
    /\ times (track_stop 0 0) (calls s2) = 2
    /\ times (track_stop 0 1) (calls s2) = 2
    /\ times peer_destroy (calls s2) = 2
    /\ times onEnd (calls s2) = 2.
Proof. eexists. split; [reflexivity|]. repeat split. Qed.

(** C1, amended.  From any session and for any closure, [endCall] never
    throws, however often it is invoked.  Every invocation runs the whole
    teardown again: [n + 1] invocations call [onEnd] [n + 1] times and
    [stop] [n + 1] times on every track of the stream the closure sees.
    The objects end up as after a single invocation: the session after
    [n + 1] invocations is the one after the first, with [n] more rounds of
    the same calls in the log. *)
Theorem endCall_any_number_of_times (c : Closure) (n : nat) (s : Session) :
  exists s1 sn,
    endCall c s = Ok s1
    /\ repeatedly (S n) (endCall c) s = Ok sn
    /\ calls s1 = calls s ++ cleanup_calls c s ++ [onEnd]
    /\ sn = log (mjoin (replicate n (cleanup_calls c s ++ [onEnd]))) s1
    /\ times onEnd (calls sn) = times onEnd (calls s) + S n
    /\ (forall r i,
          seen_localStream c = Some r ->
          i < length (default [] (streams s !! r)) ->
          times (track_stop r i) (calls sn)
          = times (track_stop r i) (calls s) + S n).
Proof.
  destruct (repeatedly_endCall c n s) as (s1 & E1 & En).
  exists s1. eexists. split; [done|]. split; [exact En|].
  pose proof E1 as E. rewrite endCall_once in E. injection E as <-.
  split; [done|]. split; [done|].
  unfold log; cbn [calls]. split.
  - rewrite !times_app, times_replicate, !times_app.
    rewrite times_onEnd_cleanup. change (times onEnd [onEnd]) with 1. lia.
  - intros r i Hr Hi. rewrite !times_app, times_replicate, !times_app.
    rewrite (times_track_stop_cleanup c s r i) by done.
    change (times (track_stop r i) [onEnd]) with 0. lia.
Qed.

(** The hang-up button followed by the peer's own [close] event: the
    second [endCall] belongs to the render that created the peer. *)
Example hangup_then_peer_close :
  exists s2,
    run video_props [click_end; peer_close_event] in_call = Ok s2
    /\ times peer_destroy (calls s2) = 2
    /\ times onEnd (calls s2) = 2.
Proof. eexists. split; [reflexivity|]. repeat split. Qed.

(** ** Signals from the socket *)

Ltac unfold_handlers :=
  unfold on_socket, on_peer, on_destroyed_peer, handleIncomingCall, handleCallAccepted,
    handleIceCandidate, toggleMute, toggleVideo, peer_on_signal, peer_on_stream,
    peer_on_error, peer_on_close, endCall, cleanup, initializeCall_settled,
    createPeer, forEach_flip, forEach_stop, peer_signal, peer_destroy_, guard,
    andThen, pure, log, set_streams, set_peerRef, setCallStatus, setLocalStream,
    setRemoteStream, setIsMuted, setIsVideoOff in *.

(** The session after [data] was handed to its peer [q]: only the peer's
    [fed] list grows, at its end. *)
Lemma peer_signal_live data s q :
  peerRef s = Some q ->
  destroyed q = false ->
  peer_signal data s
  = Ok (mkSession (localStream s) (remoteStream s) (isMuted s) (isVideoOff s)
                  (callStatus s)
                  (Some (mkPeer (initiator q) (trickle q) (stream q) (owner q)
                                (fed q ++ [data]) false))
                  (streams s) (calls s)).
Proof. intros E D. unfold peer_signal. by rewrite E, D, <- D. Qed.

Lemma handleIncomingCall_from_stranger c signal from_user_id s :
  from_user_id <> recipientId (props c) ->
  handleIncomingCall c signal from_user_id s = Ok s.
Proof.
  intros H. unfold handleIncomingCall, guard, strict_eq.
  by rewrite bool_decide_eq_false_2.
Qed.

Lemma step_only_initiators p e s s' :
  only_initiators s -> step p e s = Ok s' -> only_initiators s'.
Proof.
  unfold only_initiators. intros H E.
  destruct s as [ls rs m v st pr ss cs]. cbn in H.
  destruct e; cbn in E; unfold_handlers; cbn in E;
    repeat (case_match; cbn in *; simplify_eq); cbn in *; simplify_eq; done.
Qed.

Lemma reachable_only_initiators p s : reachable p s -> only_initiators s.
Proof.
  induction 1 as [s E|s e s' _ IH E].
  - unfold mounted, initializeCall, pure in E. by injection E as <-.
  - by eapply step_only_initiators.
Qed.

(** C2, as stated, fails.  A freshly mounted session has no peer yet; an
    [incoming_call] from the counterpart leaves it exactly as it was: no
    peer is built and the offer goes nowhere. *)
Lemma incoming_call_before_peer_builds_nothing :
  exists s0,
    mounted video_props = Ok s0
    /\ step video_props (incoming_call offer bob) s0 = Ok s0
    /\ peerRef s0 = None.
Proof. eexists. repeat split. Qed.

(** C2, amended.  An [incoming_call] from the session's counterpart is fed
    into the peer when one exists that has not been destroyed: the signal
    becomes the last thing the peer was fed and nothing else changes.  It
    is ignored when no peer exists: the session is left unchanged and no
    peer is built.  No session the event loop can reach holds a peer in
    responder role. *)
Theorem incoming_call_from_counterpart (p : Props) (c : Closure)
    (signal : SignalData) (s : Session) :
  match peerRef s with
  | None => handleIncomingCall c signal (recipientId (props c)) s = Ok s
  | Some q =>
      if destroyed q then True
      else handleIncomingCall c signal (recipientId (props c)) s
           = Ok (mkSession (localStream s) (remoteStream s) (isMuted s)
                           (isVideoOff s) (callStatus s)
                           (Some (mkPeer (initiator q) (trickle q) (stream q)
                                         (owner q) (fed q ++ [signal]) false))
                           (streams s) (calls s))
  end
  /\ (reachable p s -> forall q, peerRef s = Some q -> initiator q = true).
Proof.
  split.
  - unfold handleIncomingCall, guard, strict_eq.
    rewrite bool_decide_eq_true_2 by done.
    destruct (peerRef s) as [q|] eqn:E; [|done].
    destruct (destroyed q) eqn:D; [done|]. cbn. by apply peer_signal_live.
  - intros R q E. apply reachable_only_initiators in R.
    unfold only_initiators in R. by rewrite E in R.
Qed.

(** C3, as stated, fails.  A candidate that arrives before the peer exists
    leaves the session unchanged, so nothing is kept of it; when the peer
    is built afterwards and the answer comes in, the answer is all the peer
    was ever fed. *)
Lemma early_candidate_is_dropped :
  exists s0 s3 q,
    mounted video_props = Ok s0
    /\ step video_props (ice_candidate candidate1) s0 = Ok s0
    /\ run video_props [ice_candidate candidate1;
                        media_settled (Ok camera);
                        call_accepted answer] s0 = Ok s3
    /\ peerRef s3 = Some q
    /\ fed q = [answer].
Proof. do 3 eexists. repeat split. Qed.

(** C3, amended.  A candidate that arrives before the peer exists is
    dropped without an error: the session is left unchanged and nothing is
    buffered.  A falsy candidate is ignored whenever it arrives.  A truthy
    candidate that arrives while a peer exists that has not been destroyed
    is fed into the peer at once. *)
Theorem handleIceCandidate_spec (candidate : Value) (s : Session) :
  match peerRef s with
  | None => handleIceCandidate candidate s = Ok s
  | Some q =>
      if truthy_value candidate
      then if destroyed q then True
           else handleIceCandidate candidate s
                = Ok (mkSession (localStream s) (remoteStream s) (isMuted s)
                                (isVideoOff s) (callStatus s)
                                (Some (mkPeer (initiator q) (trickle q) (stream q)
                                              (owner q) (fed q ++ [candidate])
                                              false))
                                (streams s) (calls s))
      else handleIceCandidate candidate s = Ok s
  end.
Proof.
  unfold handleIceCandidate, guard.
  destruct (peerRef s) as [q|] eqn:E; [|done]. cbn.
  destruct (truthy_value candidate); [|done].
  destruct (destroyed q) eqn:D; [done|]. by apply peer_signal_live.
Qed.

(** C7.  An [incoming_call] whose [from_user_id] is not the session's
    [recipientId] is ignored: the handler returns without throwing and the
    session, its peer included, is exactly what it was. *)
Theorem incoming_call_from_other_sender (c : Closure) (signal : SignalData)
    (from_user_id : str) (s : Session) :
  from_user_id <> recipientId (props c) ->
  handleIncomingCall c signal from_user_id s = Ok s.
Proof. apply handleIncomingCall_from_stranger. Qed.

Lemma incoming_call_from_other_sender_witness :
  handleIncomingCall (render video_props in_call) offer (lit "mallory") in_call
  = Ok in_call.
Proof. apply incoming_call_from_other_sender. by vm_compute. Defined.



(** ** Starting the call *)

(** C5.  When [getUserMedia] rejects, the status becomes the readable
    'Failed to access camera/microphone' and no peer is created (a freshly
    mounted session still has none); when it resolves, the stream is
    stored, a peer is created as initiator on that stream and the status
    becomes 'Calling...'. *)
Theorem initializeCall_settled_outcomes (c : Closure) (s : Session) :
  (forall e, exists s',
      initializeCall_settled c (Throw e) s = Ok s'
      /\ callStatus s' = lit "Failed to access camera/microphone"
      /\ peerRef s' = peerRef s
      /\ localStream s' = localStream s
      /\ streams s' = streams s)
  /\ (forall tracks, exists s' q,
      initializeCall_settled c (Ok tracks) s = Ok s'
      /\ callStatus s' = lit "Calling..."
      /\ peerRef s' = Some q
      /\ initiator q = true
      /\ destroyed q = false
      /\ localStream s' = Some (stream q)
      /\ streams s' !! stream q = Some tracks)
  /\ (forall p e, exists s0 s',
      mounted p = Ok s0
      /\ step p (media_settled (Throw e)) s0 = Ok s'
      /\ callStatus s0 = lit "Connecting..."
      /\ callStatus s' = lit "Failed to access camera/microphone"
      /\ peerRef s' = None).
Proof.
  split; [|split].
  - intros e. eexists. split; [reflexivity|]. by repeat split.
  - intros tracks. do 2 eexists. split; [reflexivity|]. cbn.
    repeat split. rewrite lookup_app_r by done. by rewrite Nat.sub_diag.
  - intros p e. do 2 eexists. by repeat split.
Qed.

(** ** Mute *)

Lemma flip_audio_enabled t :
  enabled (flip_audio t)
  = match kind t with audio => negb (enabled t) | video => enabled t end.
Proof. by destruct t as [[] e r]. Qed.

Lemma flip_audio_twice t : flip_audio (flip_audio t) = t.
Proof.
  destruct t as [[] e r]; unfold flip_audio, on_selected, flip_enabled; cbn;
    by rewrite ?negb_involutive.
Qed.

(** C8.  In a session with a local stream, one [toggleMute] from the
    current render flips [enabled] on every audio track of the stream
    (video tracks are untouched) and flips [isMuted]; it makes no call,
    feeds nothing to the peer and leaves [callStatus] alone.  A second one
    from the next render gives back the session one started from, so the
    flags are the original ones ([isMuted] is [false] again when it was). *)
Theorem toggleMute_twice (p : Props) (s : Session) (r : StreamRef) :
  localStream s = Some r ->
  exists s1,
    toggleMute (render p s) s = Ok s1
    /\ toggleMute (render p s1) s1 = Ok s
    /\ isMuted s1 = negb (isMuted s)
    /\ streams s1 !! r = map flip_audio <$> streams s !! r
    /\ (forall t, enabled (flip_audio t)
                  = match kind t with
                    | audio => negb (enabled t)
                    | video => enabled t
                    end)
    /\ calls s1 = calls s
    /\ callStatus s1 = callStatus s
    /\ peerRef s1 = peerRef s.
Proof.
  intros E. destruct s as [ls rs m v st pr ss cs]. cbn in E. subst ls.
  eexists. split; [reflexivity|]. cbn.
  split; [|split; [done|split; [apply list_lookup_alter_eq|]]].
  - unfold toggleMute, guard, andThen, forEach_flip, pure, setIsMuted, set_streams.
    cbn. rewrite negb_involutive, alter_twice, alter_id; [done|].
    intros ms. rewrite map_map. rewrite <- (map_id ms) at 2.
    apply map_ext, flip_audio_twice.
  - split; [apply flip_audio_enabled|done].
Qed.

Lemma toggleMute_twice_witness :
  exists s1,
    toggleMute (render video_props in_call) in_call = Ok s1
    /\ toggleMute (render video_props s1) s1 = Ok in_call
    /\ isMuted s1 = true
    /\ streams s1 = [[mkTrack audio false live; mkTrack video true live]]
    /\ isMuted in_call = false.
Proof.
  destruct (toggleMute_twice video_props in_call 0 eq_refl)
    as (s1 & E1 & E2 & M & _).
  exists s1. split; [exact E1|]. split; [exact E2|]. split; [exact M|].
  split; [|reflexivity]. cbv in E1. injection E1 as <-. reflexivity.
Defined.

End CallSession.

(** * Properties of conversation sync *)

Module ConversationSync.
Import Messages SyncNotions.

Example toString_noon : toString (now noon) = lit "1714557600000".
Proof. reflexivity. Qed.

Example trim_strips_both_ends : trim (lit "  hi there  ") = lit "hi there".
Proof. reflexivity. Qed.

Lemma delete_last {A} (l : list A) (x : A) : delete (length l) (l ++ [x]) = l.
Proof. by rewrite delete_middle, app_nil_r. Qed.


(** C6, as stated, fails.  With the socket disconnected, [sendMessage]
    issues the REST write and waits: nothing is appended while the write is
    in flight, and nothing at all when it fails.  Content made of blanks
    only is not sent on either path. *)
Lemma rest_send_waits_for_the_write :
  let c := render me offline in
  let waiting := sendMessage c noon noon offline in
  messages waiting = messages offline
  /\ inflight waiting = [post_message c]
  /\ messages (step me first_render
                 (settle 0 (post_settled (Throw Rejected) noon noon)) waiting)
     = messages offline
  /\ sendMessage (render me online_blank) noon noon online_blank = online_blank.
Proof. repeat split. Qed.

Section Mounted.

(** The user the component is mounted for and the closure of its first
    render. *)
Variables (self : str) (c0 : Closure).

Lemma run_snoc es e s :
  run self c0 (es ++ [e]) s = step self c0 e (run self c0 es s).
Proof. unfold run. by rewrite foldl_app. Qed.

Lemma navigate_keeps_log uid s :
  messages (step self c0 (navigate uid) s) = messages s.
Proof.
  cbn [step]. case_bool_decide; [done|].
  unfold userId_effect. cbn. destruct uid as [u|]; [|done].
  by destruct (truthy_str u).
Qed.




(** C9.  With the socket path not taken, a REST write that fails leaves
    the state as it was before [sendMessage]: log, input text, list and
    requests in flight are untouched, and only the write and the error
    notice show in the calls.  With the socket path taken the provisional
    message is appended there and then. *)
Theorem sendMessage_failure_is_atomic (c : Closure) (u : str)
    (t_id t_created : Clock) (s : State) :
  seen_userId c = Some u ->
  truthy_str u = true ->
  truthy_str (trim (seen_newMessage c)) = true ->
  if truthy (seen_socket c) && connected s
  then
    messages (sendMessage c t_id t_created s)
    = seen_messages c ++ [provisional c u t_id t_created]
  else
    forall e t3 t4,
      step self c0 (settle (length (inflight s)) (post_settled (Throw e) t3 t4))
           (sendMessage c t_id t_created s)
      = log [axios_post_messages u (seen_newMessage c);
             toast_error (lit "Failed to send message")] s.
Proof.
  intros U T B. unfold sendMessage. rewrite U, T, B. cbn [negb orb].
  destruct (truthy (seen_socket c) && connected s); [done|].
  intros e t3 t4. unfold await. cbn [step inflight set_inflight log].
  rewrite lookup_app_r, Nat.sub_diag by done. cbn [lookup list_lookup resume].
  rewrite delete_last. unfold sendMessage_settled, set_inflight, log. cbn.
  by rewrite <- app_assoc.
Qed.

End Mounted.


Lemma sendMessage_failure_is_atomic_witness :
  step me first_render (settle 0 (post_settled (Throw Rejected) noon noon))
       (sendMessage (render me offline) noon noon offline)
  = log [axios_post_messages bob (lit "hi");
         toast_error (lit "Failed to send message")] offline.
Proof.
  exact (sendMessage_failure_is_atomic me first_render (render me offline) bob
           noon noon offline eq_refl eq_refl eq_refl Rejected noon noon).
Defined.

(** C6, amended.  For content that is not blank (not empty once trimmed)
    and a selected thread: on a connected socket the send event is emitted
    and the provisional message (id from the clock, the sender's id, the
    recipient's id, the content, the current time) is appended to the log
    at once; otherwise the REST write is issued and the log and the input
    stay as they are while it is in flight.  When the write has succeeded
    and the log is still what it was, the provisional message is appended
    to it; when the write has failed nothing is appended. *)
Theorem sendMessage_paths (self u : str) (t_id t_created : Clock) (s : State) :
  userId s = Some u ->
  truthy_str u = true ->
  truthy_str (trim (newMessage s)) = true ->
  let c := render self s in
  let s' := sendMessage c t_id t_created s in
  let sent t1 t2 := mkMessage (toString (now t1)) self u (newMessage s)
                              (toISOString t2) in
  if truthy (socket s) && connected s
  then
    calls s' = calls s ++ [socket_emit_send_message u (newMessage s);
                           axios_get_conversations]
    /\ messages s' = messages s ++ [sent t_id t_created]
    /\ newMessage s' = []
  else
    calls s' = calls s ++ [axios_post_messages u (newMessage s)]
    /\ inflight s' = inflight s ++ [post_message c]
    /\ messages s' = messages s
    /\ newMessage s' = newMessage s
    /\ (forall later t3 t4,
          messages later = messages s ->
          messages (sendMessage_settled c (Ok ()) t3 t4 later)
          = messages later ++ [sent t3 t4])
    /\ (forall later e t3 t4,
          messages (sendMessage_settled c (Throw e) t3 t4 later)
          = messages later).
Proof.
  intros U T B c s' sent. subst c s' sent.
  unfold sendMessage, sendMessage_settled.
  cbn [render seen_userId seen_newMessage seen_socket seen_messages user].
  rewrite U, T, B. cbn [negb orb].
  destruct (truthy (socket s) && connected s); cbn.
  - by rewrite <- app_assoc.
  - repeat split; try done. by intros later t3 t4 ->.
Qed.

Lemma sendMessage_paths_witness :
  let c := render me offline in
  let s' := sendMessage c noon noon offline in
  calls s' = [axios_post_messages bob (lit "hi")]
  /\ inflight s' = [post_message c]
  /\ messages s' = [from_bob]
  /\ newMessage s' = lit "hi"
  /\ (forall later t3 t4,
        messages later = [from_bob] ->
        messages (sendMessage_settled c (Ok ()) t3 t4 later)
        = messages later
          ++ [mkMessage (toString (now t3)) me bob (lit "hi") (toISOString t4)])
  /\ (forall later e t3 t4,
        messages (sendMessage_settled c (Throw e) t3 t4 later)
        = messages later).
Proof.
  apply (sendMessage_paths me bob noon noon offline); reflexivity.
Defined.

End ConversationSync.

(** * Further properties of the call session *)

Module CallEvents.
Import VideoCall CallNotions CallSession.
Local Open Scope cmd_scope.

Ltac split_guards :=
  repeat match goal with
         | H : _ && _ = true |- _ => apply andb_true_iff in H as [? ?]
         end.

Ltac step_cases E :=
  unfold_handlers; cbn in E;
  repeat (case_match; cbn in *; simplify_eq); split_guards; cbn in *; simplify_eq.

Example hung_up_is_reached : run video_props [click_end] in_call = Ok hung_up.
Proof. reflexivity. Qed.

Lemma in_call_reachable : reachable video_props in_call.
Proof.
  eapply (reachable_step video_props _ (media_settled (Ok camera))).
  - by apply reachable_mounted.
  - reflexivity.
Qed.

(** ** What a handler can throw *)

(** X1.  No handler of the call component calls a method on null: every
    event, from every session, either returns or is a socket signal that
    reaches a peer which has been destroyed (and is still in [peerRef]),
    where simple-peer's [signal] throws [ERR_DESTROYED]. *)
Theorem handlers_throw_only_on_a_destroyed_peer (p : Props) (e : Event)
    (s : Session) :
  (exists s', step p e s = Ok s')
  \/ (step p e s = Throw ERR_DESTROYED
      /\ from_socket e = true
      /\ exists q, peerRef s = Some q /\ destroyed q = true).
Proof.
  destruct s as [ls rs m v st pr ss cs].
  destruct e; cbn; unfold_handlers; cbn;
    repeat (case_match; cbn in *; simplify_eq); split_guards; cbn in *;
    simplify_eq; eauto 8.
Qed.

(** ** The life of the local tracks *)

Lemma evolves_refl l : evolves l l.
Proof. intros r i t H. exists t. by repeat split. Qed.

Lemma evolves_alter (f : Track -> Track) r0 l :
  (forall t, ages t (f t)) -> evolves l (alter (map f) r0 l).
Proof.
  intros F r i t H. rewrite list_lookup_alter. case_decide; subst.
  - destruct (l !! r) as [ms|]; [|done]. cbn in *.
    rewrite list_lookup_fmap, H. cbn. eauto.
  - exists t. by repeat split.
Qed.

Lemma evolves_app l ext : evolves l (l ++ ext).
Proof.
  intros r i t H. exists t. split; [|by repeat split].
  destruct (l !! r) as [ms|] eqn:E; [|done].
  by rewrite (lookup_app_l_Some _ _ _ _ E).
Qed.

Lemma ages_stop t : ages t (stop t).
Proof. by destruct t. Qed.

Lemma ages_flip k t : ages t (on_selected (is_kind k) flip_enabled t).
Proof. unfold on_selected. by destruct t as [[] e rs], k. Qed.

Lemma step_evolves p e s s' :
  step p e s = Ok s' -> evolves (streams s) (streams s').
Proof.
  intros E. destruct s as [ls rs m v st pr ss cs].
  destruct e; cbn in E; step_cases E;
    auto using evolves_refl, evolves_app, evolves_alter, ages_stop, ages_flip.
Qed.

(** X2.  A local track never goes away, never changes kind and, once
    stopped, is never live again, whatever events follow: the toggles only
    touch [enabled], and [getUserMedia] settling again adds a stream
    without touching the ones there are. *)
Theorem tracks_never_revive (p : Props) (es : list Event) (s s' : Session)
    (r i : nat) (t : Track) :
  run p es s = Ok s' ->
  track_at s r i = Some t ->
  exists t', track_at s' r i = Some t'
    /\ kind t' = kind t
    /\ (readyState t = ended -> readyState t' = ended).
Proof.
  revert s t. induction es as [|e es IH]; intros s t E H.
  - injection E as <-. exists t. by repeat split.
  - cbn [run] in E. unfold andThen in E.
    destruct (step p e s) as [s1|] eqn:E1; [|done].
    destruct (step_evolves p e s s1 E1 r i t H) as (t1 & H1 & K1 & R1).
    destruct (IH s1 t1 E H1) as (t' & H' & K' & R').
    exists t'. split; [done|]. split; [congruence|auto].
Qed.

Lemma tracks_never_revive_witness :
  exists t', track_at hung_up 0 0 = Some t'
    /\ kind t' = audio
    /\ (ended = ended -> readyState t' = ended).
Proof.
  apply (tracks_never_revive video_props [click_mute; click_mute] hung_up
           hung_up 0 0 (mkTrack audio true ended)); reflexivity.
Defined.

Lemma step_mount_owned p e s s' :
  mount_owned p s -> step p e s = Ok s' -> mount_owned p s'.
Proof.
  unfold mount_owned. intros H E.
  destruct s as [ls rs m v st pr ss cs]. cbn in H.
  destruct e; cbn in E; step_cases E; try done.
  all: by destruct H.
Qed.

Lemma reachable_mount_owned p s : reachable p s -> mount_owned p s.
Proof.
  induction 1 as [s E|s e s' _ IH E].
  - unfold mounted, initializeCall, pure in E. by injection E as <-.
  - by eapply step_mount_owned.
Qed.

Lemma keeps_refl l : keeps l l.
Proof. intros r i t H. by exists t. Qed.

Lemma keeps_alter (f : Track -> Track) r0 l :
  (forall t, readyState (f t) = readyState t) -> keeps l (alter (map f) r0 l).
Proof.
  intros F r i t H. rewrite list_lookup_alter. case_decide; subst.
  - destruct (l !! r) as [ms|]; [|done]. cbn in *.
    rewrite list_lookup_fmap, H. cbn. eauto.
  - by exists t.
Qed.

Lemma keeps_app l ext : keeps l (l ++ ext).
Proof.
  intros r i t H. exists t. split; [|done].
  destruct (l !! r) as [ms|] eqn:E; [|done].
  by rewrite (lookup_app_l_Some _ _ _ _ E).
Qed.

Lemma readyState_flip k t :
  readyState (on_selected (is_kind k) flip_enabled t) = readyState t.
Proof. unfold on_selected. by destruct t as [[] e rs], k. Qed.

Lemma same_calls_no_stop (cs : list Call) :
  exists l, cs = cs ++ l /\ no_stop l.
Proof. exists []. split; [by rewrite app_nil_r|constructor]. Qed.

Lemma more_calls_no_stop (cs l : list Call) :
  no_stop l -> exists l', cs ++ l = cs ++ l' /\ no_stop l'.
Proof. by exists l. Qed.

(** X3.  In a session the event loop can reach, the hang-up button is the
    only event that stops local tracks.  Every other event, the peer's
    [close] and the unmount included, leaves each track as live or as
    ended as it was and calls [stop()] on none: their teardown runs in the
    first render's closure, which holds no stream. *)
Theorem only_hangup_stops_tracks (p : Props) (e : Event) (s s' : Session) :
  reachable p s ->
  e <> click_end ->
  step p e s = Ok s' ->
  keeps (streams s) (streams s')
  /\ exists l, calls s' = calls s ++ l /\ no_stop l.
Proof.
  intros R N E. apply reachable_mount_owned in R. unfold mount_owned in R.
  destruct s as [ls rs m v st pr ss cs]. cbn in R.
  destruct e; try done; cbn in E.
  all: try (destruct pr as [q|]; [destruct R as [O I]|]).
  all: unfold on_peer, peer_on_close in E; cbn in E; rewrite ?O in E; cbn in E.
  all: step_cases E.
  all: split; [auto using keeps_refl, keeps_app, keeps_alter, readyState_flip|].
  all: cbn; try done.
  all: rewrite <- ?app_assoc.
  all: first [ apply same_calls_no_stop
             | apply more_calls_no_stop;
               repeat (apply Forall_cons; split; [by intros ? ?|]);
               by apply Forall_nil ].
Qed.

Lemma only_hangup_stops_tracks_witness :
  keeps (streams in_call)
        (streams (log [peer_destroy; onEnd]
                      (set_peerRef (Some (destroy the_peer)) in_call)))
  /\ exists l,
       calls (log [peer_destroy; onEnd]
                  (set_peerRef (Some (destroy the_peer)) in_call))
       = calls in_call ++ l
       /\ no_stop l.
Proof.
  apply (only_hangup_stops_tracks video_props peer_close_event in_call).
  - exact in_call_reachable.
  - discriminate.
  - reflexivity.
Defined.

(** ** Signals *)

(** X4.  In a session the event loop can reach, every signal the peer
    emits is sent on as [call_user] to [recipientId] with type 'offer'
    (never 'answer': the peer is always the initiator); without a socket it
    is not sent and nothing else happens. *)
Theorem peer_signal_is_forwarded_as_offer (p : Props) (s : Session) (q : Peer)
    (signal : SignalData) :
  reachable p s ->
  peerRef s = Some q ->
  step p (peer_signal_event signal) s
  = Ok (if truthy (socket p)
        then log [socket_emit_call_user (recipientId p) signal (lit "offer")] s
        else s).
Proof.
  intros R E. apply reachable_mount_owned in R. unfold mount_owned in R.
  rewrite E in R. destruct R as [O I].
  cbn [step]. unfold on_peer. rewrite E. unfold peer_on_signal, guard, pure.
  rewrite O, I. cbn. by destruct (socket p).
Qed.

Lemma peer_signal_is_forwarded_as_offer_witness :
  step video_props (peer_signal_event offer) in_call
  = Ok (log [socket_emit_call_user bob offer (lit "offer")] in_call).
Proof.
  apply (peer_signal_is_forwarded_as_offer video_props in_call the_peer offer).
  - exact in_call_reachable.
  - reflexivity.
Defined.

(** X7.  With a socket and a peer that has not been destroyed, a series
    of [call_accepted] events feeds the peer each signal, in arrival order,
    after what it was fed before, and changes nothing else in the
    session. *)
Theorem accepted_signals_are_fed_in_order (p : Props)
    (signals : list SignalData) (s : Session) (q : Peer) :
  truthy (socket p) = true ->
  peerRef s = Some q ->
  destroyed q = false ->
  run p (map call_accepted signals) s
  = Ok (mkSession (localStream s) (remoteStream s) (isMuted s) (isVideoOff s)
                  (callStatus s)
                  (Some (mkPeer (initiator q) (trickle q) (stream q) (owner q)
                                (fed q ++ signals) false))
                  (streams s) (calls s)).
Proof.
  intros S. revert s q. induction signals as [|d l IH]; intros s q E D.
  - cbn. rewrite app_nil_r. unfold skip. f_equal.
    destruct s, q; cbn in *; by subst.
  - cbn [map run]. unfold andThen. cbn [step]. unfold on_socket, guard at 1.
    rewrite S. unfold handleCallAccepted, guard. rewrite E. cbn [truthy].
    rewrite (peer_signal_live d s q E D).
    erewrite IH; [|reflexivity|reflexivity]. cbn. by rewrite <- app_assoc.
Qed.

Lemma accepted_signals_are_fed_in_order_witness :
  run video_props (map call_accepted [answer; candidate1]) in_call
  = Ok (mkSession (Some 0) None false false (lit "Calling...")
                  (Some (mkPeer true true 0
                                (render video_props (mount video_props))
                                [answer; candidate1] false))
                  [camera] [get_user_media true]).
Proof.
  apply (accepted_signals_are_fed_in_order video_props [answer; candidate1]
           in_call the_peer); reflexivity.
Defined.

(** ** Status and flags *)

Lemma step_status_ok p e s s' : status_ok s -> step p e s = Ok s' -> status_ok s'.
Proof.
  unfold status_ok. intros [H1 H2] E.
  destruct s as [ls rs m v st pr ss cs]. cbn in H1, H2.
  destruct e; cbn in E; step_cases E; try (split; [done|done]).
  all: split; [unfold statuses; repeat constructor|]; try done; eauto.
Qed.

(** X5.  In every session the event loop can reach, the status text is
    one of 'Connecting...', 'Calling...', 'Connected', 'Connection error'
    and 'Failed to access camera/microphone' (there is no status for an
    ended call), and it reads 'Connected' only if a remote stream has been
    received. *)
Theorem reachable_status (p : Props) (s : Session) :
  reachable p s ->
  callStatus s ∈ statuses
  /\ (callStatus s = lit "Connected" -> is_Some (remoteStream s)).
Proof.
  induction 1 as [s E|s e s' _ IH E].
  - unfold mounted, initializeCall, pure in E. injection E as <-.
    split; [repeat constructor|done].
  - by eapply step_status_ok.
Qed.

Lemma reachable_status_witness :
  callStatus in_call ∈ statuses
  /\ (callStatus in_call = lit "Connected" -> is_Some (remoteStream in_call)).
Proof. apply (reachable_status video_props in_call). exact in_call_reachable. Defined.

Lemma step_isVideoOff p e s s' :
  callType p <> lit "video" -> step p e s = Ok s' -> isVideoOff s' = isVideoOff s.
Proof.
  intros N E. destruct s as [ls rs m v st pr ss cs].
  destruct e; cbn in E; step_cases E; try done.
  all: unfold strict_eq in *; by case_bool_decide.
Qed.

(** X6.  When the call type is not 'video', the video-off flag keeps the
    value it was mounted with (on for an 'audio' call) in every session the
    event loop can reach: the video button does nothing there. *)
Theorem video_stays_off_outside_video_calls (p : Props) (s : Session) :
  callType p <> lit "video" ->
  reachable p s ->
  isVideoOff s = strict_eq (callType p) (lit "audio").
Proof.
  intros N. induction 1 as [s E|s e s' _ IH E].
  - unfold mounted, initializeCall, pure in E. by injection E as <-.
  - by rewrite (step_isVideoOff p e s s').
Qed.

Lemma audio_call_reachable : reachable audio_props audio_call.
Proof.
  eapply (reachable_step audio_props _ click_mute).
  - eapply (reachable_step audio_props _ click_video).
    + eapply (reachable_step audio_props _
                (media_settled (Ok [mkTrack audio true live]))).
      * by apply reachable_mounted.
      * reflexivity.
    + reflexivity.
  - reflexivity.
Qed.

Lemma video_stays_off_outside_video_calls_witness :
  isVideoOff audio_call = true.
Proof.
  apply (video_stays_off_outside_video_calls audio_props audio_call).
  - by vm_compute.
  - exact audio_call_reachable.
Defined.

(** ** The two toggles *)

Lemma flips_commute t : flip_audio (flip_video t) = flip_video (flip_audio t).
Proof. by destruct t as [[] e rs]. Qed.

Lemma flip_video_twice t : flip_video (flip_video t) = t.
Proof.
  destruct t as [[] e r]; unfold flip_video, on_selected, flip_enabled; cbn;
    by rewrite ?negb_involutive.
Qed.

(** X8.  The mute button and the video button can be pressed in either
    order: from any session, mute then video leaves the same session as
    video then mute. *)
Theorem mute_and_video_toggles_commute (p : Props) (s : Session) :
  run p [click_mute; click_video] s = run p [click_video; click_mute] s.
Proof.
  destruct s as [ls rs m v st pr ss cs].
  cbn [run]. unfold step, andThen, toggleMute, toggleVideo, guard, forEach_flip,
    pure, skip, render, setIsMuted, setIsVideoOff, set_streams.
  cbn [props seen_localStream seen_isMuted seen_isVideoOff localStream isMuted
       isVideoOff streams callStatus peerRef calls remoteStream].
  destruct ls as [r|]; cbn [truthy andb]; [|done].
  destruct (strict_eq (callType p) (lit "video")); cbn; [|done].
  do 2 f_equal. rewrite !alter_twice. apply alter_pointwise. intros ms.
  rewrite !map_map. apply map_ext. intros t.
  first [apply flips_commute | symmetry; apply flips_commute].
Qed.

(** X9.  In a video call with a local stream, the video button flips
    [enabled] on the video tracks only and flips the video-off flag,
    without any call and without touching the mute flag, the status or the
    peer; pressed again it gives back the session one started from. *)
Theorem toggleVideo_twice (p : Props) (s : Session) (r : StreamRef) :
  localStream s = Some r ->
  callType p = lit "video" ->
  exists s1,
    step p click_video s = Ok s1
    /\ step p click_video s1 = Ok s
    /\ isVideoOff s1 = negb (isVideoOff s)
    /\ streams s1 !! r = map flip_video <$> streams s !! r
    /\ (forall t, flip_video t
                  = match kind t with
                    | video => mkTrack video (negb (enabled t)) (readyState t)
                    | audio => t
                    end)
    /\ isMuted s1 = isMuted s
    /\ calls s1 = calls s
    /\ callStatus s1 = callStatus s
    /\ peerRef s1 = peerRef s.
Proof.
  intros E V. destruct s as [ls rs m v st pr ss cs]. cbn in E. subst ls.
  cbn [step]. unfold toggleVideo, guard, andThen, forEach_flip, pure, render,
    setIsVideoOff, set_streams. cbn. rewrite V. cbn.
  eexists. split; [reflexivity|]. cbn.
  split; [|split; [done|split; [apply list_lookup_alter_eq|]]].
  - rewrite negb_involutive, alter_twice, alter_id; [done|].
    intros ms. rewrite map_map. rewrite <- (map_id ms) at 2.
    apply map_ext, flip_video_twice.
  - split; [|done]. by intros [[] e rs0].
Qed.

Lemma toggleVideo_twice_witness :
  exists s1,
    step video_props click_video in_call = Ok s1
    /\ step video_props click_video s1 = Ok in_call
    /\ isVideoOff s1 = true
    /\ streams s1 = [[mkTrack audio true live; mkTrack video false live]].
Proof.
  destruct (toggleVideo_twice video_props in_call 0 eq_refl eq_refl)
    as (s1 & E1 & E2 & V & _).
  exists s1. split; [exact E1|]. split; [exact E2|]. split; [exact V|].
  cbv in E1. injection E1 as <-. reflexivity.
Defined.

End CallEvents.

(** * Further properties of conversation sync *)

Module ConversationEvents.
Import Messages SyncNotions ConversationSync.

(** ** What [sendMessage] refuses *)

Lemma trim_start_blank s : blank s = true -> trim_start s = [].
Proof.
  induction s as [|c r IH]; [done|]. cbn. intros [-> H]%andb_true_iff. auto.
Qed.

Lemma blank_trim_start s : blank (trim_start s) = true -> trim_start s = [].
Proof.
  induction s as [|c r IH]; [done|]. cbn [trim_start].
  destruct (is_white_space c) eqn:W; [done|]. cbn. by rewrite W.
Qed.

Lemma trim_start_nil s : trim_start s = [] -> blank s = true.
Proof.
  induction s as [|c r IH]; [done|]. cbn.
  destruct (is_white_space c); [done|done].
Qed.

Lemma blank_rev s : blank (rev s) = blank s.
Proof.
  unfold blank. apply eq_true_iff_eq. rewrite !forallb_forall.
  split; intros H x Hx; apply H; by apply in_rev in Hx || apply in_rev.
Qed.

(** [trim] leaves nothing exactly of the texts made of white space. *)
Lemma trim_nil s : trim s = [] <-> blank s = true.
Proof.
  unfold trim. split.
  - intros H. apply (f_equal (@rev N)) in H. rewrite rev_involutive in H. cbn in H.
    apply trim_start_nil in H. rewrite blank_rev in H.
    apply blank_trim_start in H. by apply trim_start_nil.
  - intros H. by rewrite (trim_start_blank s H).
Qed.

Lemma app_ne_self {A} (l x : list A) : x <> [] -> l ++ x <> l.
Proof.
  intros N E. apply (f_equal length) in E. rewrite length_app in E.
  destruct x; [done|]. cbn in E. lia.
Qed.

(** X10.  [sendMessage] leaves the state untouched (nothing emitted,
    nothing written, nothing appended, the input kept) exactly when the
    typed text is empty or made of white space only, or no thread is
    selected.  In every other case its first call is the send itself: the
    socket event on a connected socket, the REST write otherwise, with the
    thread and the text as typed. *)
Theorem sendMessage_does_nothing_iff (c : Closure) (t_id t_created : Clock)
    (s : State) :
  (sendMessage c t_id t_created s = s
   <-> blank (seen_newMessage c) = true \/ truthy_param (seen_userId c) = false)
  /\ (forall u,
        blank (seen_newMessage c) = false ->
        seen_userId c = Some u ->
        truthy_str u = true ->
        exists l,
          calls (sendMessage c t_id t_created s)
          = calls s
            ++ (if truthy (seen_socket c) && connected s
                then socket_emit_send_message u (seen_newMessage c)
                else axios_post_messages u (seen_newMessage c)) :: l).
Proof.
  split.
  - unfold sendMessage, truthy_param.
    destruct (seen_userId c) as [u|]; [|by split; [right|]].
    destruct (truthy_str (trim (seen_newMessage c))) eqn:T.
    + assert (blank (seen_newMessage c) = false) as B.
      { destruct (blank (seen_newMessage c)) eqn:B; [|done].
        apply trim_nil in B. by rewrite B in T. }
      rewrite B. cbn [negb orb].
      destruct (truthy_str u); cbn [negb]; [|by split; [right|]].
      split; [|by intros [|]].
      intros E. exfalso. apply (f_equal calls) in E. revert E.
      destruct (truthy (seen_socket c) && connected s); cbn;
        rewrite <- ?app_assoc; by apply app_ne_self.
    + cbn [negb orb]. split; [|done]. intros _. left. apply trim_nil.
      by destruct (trim (seen_newMessage c)).
  - intros u B U T. unfold sendMessage. rewrite U, T.
    assert (truthy_str (trim (seen_newMessage c)) = true) as ->.
    { destruct (trim (seen_newMessage c)) eqn:E; [|done].
      apply trim_nil in E. congruence. }
    cbn [negb orb].
    destruct (truthy (seen_socket c) && connected s); cbn.
    + eexists. by rewrite <- app_assoc.
    + by exists [].
Qed.

(** ** Inbound messages *)

(** X11.  The listener for [new_message] belongs to the first render.
    When the component was mounted on thread [first] and the user has
    moved to any other route, an inbound message is appended to the log if
    and only if it belongs to thread [first]: a message of the thread now
    open is not shown, one of the thread left behind is. *)
Theorem live_messages_follow_the_first_thread (self first : str)
    (other : option str) (message : Message) (s : State) :
  truthy_str first = true ->
  messages (run self (render self (init (Some first)))
              [navigate other; new_message message] s)
  = if in_thread first message then messages s ++ [message] else messages s.
Proof.
  intros T. unfold run. cbn [foldl].
  pose proof (navigate_keeps_log self (render self (init (Some first))) other s) as M.
  revert M. generalize (step self (render self (init (Some first))) (navigate other) s).
  intros s1 M. cbn [step].
  unfold on_new_message, in_thread. cbn [render seen_userId init userId].
  rewrite T. cbn [andb].
  destruct (strict_eq (from_user_id message) first
            || strict_eq (to_user_id message) first); cbn; by rewrite M.
Qed.

Lemma live_messages_follow_the_first_thread_witness :
  messages (run me (render me (init (Some alice)))
              [navigate (Some bob); new_message from_bob] online)
  = [from_bob]
  /\ messages (run me (render me (init (Some alice)))
                 [navigate (Some bob); new_message from_alice] online)
     = [from_bob; from_alice].
Proof.
  split.
  - apply (live_messages_follow_the_first_thread me alice (Some bob) from_bob
             online). reflexivity.
  - apply (live_messages_follow_the_first_thread me alice (Some bob) from_alice
             online). reflexivity.
Defined.

(** X12.  When the component was mounted without a thread (the bare
    messages route), no inbound message is ever appended to the log,
    whichever threads are opened afterwards: route changes, typing and
    inbound messages leave the log as it is. *)
Theorem no_live_messages_without_initial_thread (self : str) (c0 : Closure)
    (es : list Event) (s : State) :
  truthy_param (seen_userId c0) = false ->
  Forall passive es ->
  messages (run self c0 es s) = messages s.
Proof.
  intros H F. revert s. induction F as [|e es He _ IH]; intros s; [done|].
  unfold run. cbn [foldl]. fold (run self c0 es (step self c0 e s)). rewrite IH.
  destruct e; try done.
  - apply navigate_keeps_log.
  - cbn [step]. unfold on_new_message, truthy_param in *.
    destruct (seen_userId c0) as [u|]; [|done]. by rewrite H.
Qed.

Lemma no_live_messages_without_initial_thread_witness :
  messages (run me (render me (init None))
              [navigate (Some bob); new_message from_bob; new_message echo_of_hi]
              (mounted me None))
  = [].
Proof.
  apply (no_live_messages_without_initial_thread me (render me (init None))
           [navigate (Some bob); new_message from_bob; new_message echo_of_hi]
           (mounted me None)).
  - reflexivity.
  - repeat constructor.
Defined.

(** X13.  On the socket path the server's echo is not matched with the
    provisional message: after a send on the thread the component was
    mounted on, an inbound message of that thread (the echo of the one
    just sent, for one) is appended after the provisional message, so both
    are in the log. *)
Theorem echo_is_shown_beside_the_provisional_message (self : str) (c0 : Closure)
    (u : str) (t_id t_created : Clock) (echo : Message) (s : State) :
  userId s = Some u ->
  seen_userId c0 = Some u ->
  truthy_str u = true ->
  blank (newMessage s) = false ->
  socket s = Some socket_io ->
  connected s = true ->
  in_thread u echo = true ->
  messages (run self c0 [send t_id t_created; new_message echo] s)
  = messages s ++ [provisional (render self s) u t_id t_created; echo].
Proof.
  intros U U0 T B S C I. unfold run. cbn [foldl step].
  unfold on_new_message. rewrite U0, T. unfold in_thread in I. rewrite I. cbn [andb].
  unfold sendMessage. cbn [render seen_userId seen_newMessage seen_socket seen_messages].
  rewrite U, T, S, C.
  assert (truthy_str (trim (newMessage s)) = true) as ->.
  { destruct (trim (newMessage s)) eqn:E; [|done].
    apply trim_nil in E. congruence. }
  cbn. by rewrite <- app_assoc.
Qed.

Lemma echo_is_shown_beside_the_provisional_message_witness :
  messages (run me (render me (init (Some bob)))
              [send noon noon; new_message echo_of_hi] online)
  = [from_bob;
     mkMessage (lit "1714557600000") me bob (lit "hi")
               (lit "2024-05-01T10:00:00.000Z");
     echo_of_hi].
Proof.
  apply (echo_is_shown_beside_the_provisional_message me
           (render me (init (Some bob))) bob noon noon echo_of_hi online);
    reflexivity.
Defined.

(** ** Requests that fail *)

(** X14.  A request that settles with an error, whichever it is
    (conversation list, thread load, REST write) and whenever it settles,
    changes neither the open thread, nor the conversation list, nor the
    log, nor the typed text.  It starts no request: nothing is added to the
    requests in flight (the settled one, if it was in flight, is all that
    leaves them) and the only calls made are error notices. *)
Theorem failures_leave_the_view_alone (self : str) (c0 : Closure) (i : nat)
    (how : Settlement) (s : State) :
  failed how = true ->
  let s' := step self c0 (settle i how) s in
  userId s' = userId s
  /\ conversations s' = conversations s
  /\ messages s' = messages s
  /\ newMessage s' = newMessage s
  /\ (inflight s' = inflight s \/ inflight s' = delete i (inflight s))
  /\ exists l, calls s' = calls s ++ l /\ Forall notice l.
Proof.
  intros F. cbn [step].
  assert (exists l, calls s = calls s ++ l /\ Forall notice l) as Z.
  { exists []. split; [by rewrite app_nil_r|constructor]. }
  destruct (inflight s !! i) as [k|] eqn:E; [|by repeat split; auto].
  destruct k, how as [[]|[]|[]]; cbn in *; try done;
    repeat split; auto; eexists; (split; [reflexivity|]);
    by repeat constructor.
Qed.

Lemma failures_leave_the_view_alone_witness :
  let s' := step me first_render (settle 1 (messages_settled (Throw Rejected)))
                 (mounted me (Some alice)) in
  userId s' = Some alice
  /\ conversations s' = []
  /\ messages s' = []
  /\ newMessage s' = []
  /\ (inflight s' = [get_conversations; get_messages alice]
      \/ inflight s' = [get_conversations])
  /\ exists l,
       calls s' = [axios_get_conversations; axios_get_messages alice] ++ l
       /\ Forall notice l.
Proof.
  apply (failures_leave_the_view_alone me first_render 1
           (messages_settled (Throw Rejected)) (mounted me (Some alice))).
  reflexivity.
Defined.

(** ** Provisional ids *)

Lemma digits_inj d d' : digits d = digits d' -> d = d'.
Proof.
  revert d'. induction d; intros []; cbn; intros E; try done;
    injection E as E; f_equal; auto.
Qed.

(** X15.  Two provisional messages get the same id exactly when their
    clock readings are the same millisecond, whoever sends them and
    whatever they say. *)
Theorem provisional_ids_collide_only_within_a_millisecond
    (c c' : Closure) (u u' : str) (t t' t_created t_created' : Clock) :
  id (provisional c u t t_created) = id (provisional c' u' t' t_created')
  <-> now t = now t'.
Proof.
  cbn. unfold toString. split; [|by intros ->].
  intros E. by apply Unsigned.to_uint_inj, digits_inj.
Qed.

End ConversationEvents.

(** * Properties of the chat header *)

Module HeaderFacts.
Import Header.

(** X16.  When the search finds something and the friends load, the
    header shows the first friend whose id is the partner's id; when no
    friend has that id, it shows the first search hit, whatever its id.
    The two requests are made in that order. *)
Theorem selected_user_is_friend_or_first_hit (partnerId : str)
    (data friends : list User) (s : State) :
  data <> [] ->
  let s' := loadSelectedUser_run partnerId (Ok data) (Ok friends) s in
  calls s' = calls s ++ [axios_get_users_search partnerId; axios_get_friends]
  /\ match find_friend partnerId friends with
     | Some friend =>
         selectedUser s' = Some friend /\ id friend = partnerId /\ friend ∈ friends
     | None =>
         selectedUser s' = head data
         /\ Forall (fun f => id f <> partnerId) friends
     end.
Proof.
  intros N. destruct data as [|d data]; [done|].
  unfold loadSelectedUser_run, loadSelectedUser_searched, loadSelectedUser,
    loadSelectedUser_friends. cbn. split; [by rewrite <- app_assoc|].
  unfold find_friend. destruct (find _ friends) as [f|] eqn:F.
  - apply find_some in F as [I E]. split; [done|]. split.
    + unfold strict_eq in E. by apply bool_decide_eq_true_1 in E.
    + by apply list_elem_of_In.
  - split; [done|]. apply Forall_forall. intros f I E.
    apply list_elem_of_In in I.
    pose proof (find_none _ _ F f I) as X. cbn in X. unfold strict_eq in X.
    by rewrite bool_decide_eq_true_2 in X.
Qed.

Lemma selected_user_is_friend_or_first_hit_witness :
  let s' := loadSelectedUser_run (lit "u2")
              (Ok [mkUser (lit "u7") (lit "bobby")])
              (Ok [mkUser (lit "u1") (lit "alice"); mkUser (lit "u2") (lit "bob")])
              (mkState None []) in
  calls s' = [axios_get_users_search (lit "u2"); axios_get_friends]
  /\ selectedUser s' = Some (mkUser (lit "u2") (lit "bob"))
  /\ id (mkUser (lit "u2") (lit "bob")) = lit "u2"
  /\ mkUser (lit "u2") (lit "bob")
     ∈ [mkUser (lit "u1") (lit "alice"); mkUser (lit "u2") (lit "bob")].
Proof.
  apply (selected_user_is_friend_or_first_hit (lit "u2")
           [mkUser (lit "u7") (lit "bobby")]
           [mkUser (lit "u1") (lit "alice"); mkUser (lit "u2") (lit "bob")]
           (mkState None [])).
  discriminate.
Defined.

(** X17.  When the search finds nothing or fails, the header keeps the
    user it showed before (the previous thread's, after a switch) and the
    friends are not asked for; a failure is only written to the console. *)
Theorem empty_search_keeps_the_previous_header (partnerId : str)
    (search friends : Result (list User)) (s : State) :
  hits search = [] ->
  let s' := loadSelectedUser_run partnerId search friends s in
  selectedUser s' = selectedUser s
  /\ calls s'
     = calls s ++ axios_get_users_search partnerId
         :: match search with
            | Ok _ => []
            | Throw _ => [console_error (lit "Failed to load user")]
            end.
Proof.
  destruct search as [data|e]; cbn; [intros ->|intros _]; cbn;
    by rewrite <- ?app_assoc.
Qed.

Lemma empty_search_keeps_the_previous_header_witness :
  let s' := loadSelectedUser_run (lit "u9") (Ok [])
              (Ok [mkUser (lit "u9") (lit "zed")])
              (mkState (Some (mkUser (lit "u1") (lit "alice"))) []) in
  selectedUser s' = Some (mkUser (lit "u1") (lit "alice"))
  /\ calls s' = [axios_get_users_search (lit "u9")].
Proof.
  apply (empty_search_keeps_the_previous_header (lit "u9") (Ok [])
           (Ok [mkUser (lit "u9") (lit "zed")])
           (mkState (Some (mkUser (lit "u1") (lit "alice"))) [])).
  reflexivity.
Defined.

End HeaderFacts.

(** * Properties of the application shell *)

Module AppFacts.
Import App.

(** X18.  After [handleLogin] the interceptor signs every request with
    'Bearer ' and the token (unless the token is the empty string) and the
    main layout is shown for that user; after [handleLogout] the token is
    gone, no request is signed any more and the login page is shown. *)
Theorem login_then_logout (userData : User) (token : str) (s : State) :
  let s1 := handleLogin userData token s in
  let s2 := handleLogout s1 in
  interceptor s1 None
  = (if truthy_str token then Some (lit "Bearer " ++ token) else None)
  /\ (loading s = false -> view s1 = main_layout userData)
  /\ zoq_token s2 = None
  /\ user s2 = None
  /\ (forall authorization, interceptor s2 authorization = authorization)
  /\ (loading s = false -> view s2 = auth_page).
Proof.
  cbn. repeat split; try done.
  - unfold view; cbn. by intros ->.
  - unfold view; cbn. by intros ->.
Qed.

(** X19.  On start the spinner always goes away.  Without a stored token
    (or with an empty one) no request is made and the login page is shown;
    with a token, [/auth/me] is asked once: its answer logs the user in and
    keeps the token, its failure removes the token and shows the login
    page. *)
Theorem start_outcomes (stored : option str) (me : Result User) :
  let s := start stored me in
  loading s = false
  /\ match stored, me with
     | Some t, Ok u =>
         if truthy_str t
         then view s = main_layout u /\ zoq_token s = Some t
              /\ calls s = [axios_get_auth_me]
         else view s = auth_page /\ calls s = []
     | Some t, Throw _ =>
         view s = auth_page
         /\ (if truthy_str t
             then zoq_token s = None /\ calls s = [axios_get_auth_me]
             else zoq_token s = Some t /\ calls s = [])
     | None, _ => view s = auth_page /\ zoq_token s = None /\ calls s = []
     end.
Proof.
  unfold start, checkAuth, has_token. cbn.
  destruct stored as [t|], me as [u|e]; cbn; try done;
    destruct (truthy_str t); cbn; done.
Qed.

End AppFacts.
